(** * Secure-Compute: the additive "homomorphic" demos, embedded in Rocq

    The repository holds three Python scripts.  Two of them implement a
    linear obfuscation scheme by hand
    ([homomorphic_simple.py] with module-level functions,
    [homomorphic_step3.py] with the class [SimpleHomomorphicEncryption]);
    the third, [homomorphic_banking_demo.py], drives an external Paillier
    library through [+] and [*] on its ciphertext objects.

    Python integers are unbounded, so they are [Z] here.  [a // b] on
    integers is floor division and agrees with [Z.div] whenever [b] is not
    zero; with [b = 0] Python raises [ZeroDivisionError].  Calls of
    [random.randint] read a generator whose state is threaded through
    explicitly. *)

From Stdlib Require Import ZArith List String Bool Lia Permutation.
From Stdlib Require Import QArith Znumtheory Zcong ZmodInv.
Import ListNotations.

Open Scope Z_scope.

(** ** Python effects: exceptions and the random generator *)

(** What a call does: it returns a value or raises an exception, named by
    its class. *)
Inductive outcome (A : Type) : Type :=
| Returns (a : A)
| Raises (exc : string).

Arguments Returns {A} a.
Arguments Raises {A} exc.

(** The generator behind the module [random]: an unbounded supply of raw
    draws and the position of the next one. *)
Record rng : Type := mk_rng { tape : nat -> Z; cursor : nat }.

Definition advance (g : rng) : rng :=
  {| tape := tape g; cursor := S (cursor g) |}.

(** A generator that hands out the raw draws of [raws], then zeros. *)
Definition rng_of (raws : list Z) : rng :=
  {| tape := fun i => nth i raws 0; cursor := O |}.

(** A Python computation: it may consult the generator and may raise. *)
Definition py (A : Type) : Type := rng -> outcome A * rng.

Definition ret {A : Type} (a : A) : py A := fun g => (Returns a, g).

Definition raise {A : Type} (exc : string) : py A := fun g => (Raises exc, g).

Definition bind {A B : Type} (c : py A) (k : A -> py B) : py B :=
  fun g =>
    match c g with
    | (Returns a, g') => k a g'
    | (Raises exc, g') => (Raises exc, g')
    end.

Declare Scope py_scope.
Delimit Scope py_scope with py.
Notation "x <- c ;; k" := (bind c (fun x => k))
  (at level 61, c at next level, right associativity) : py_scope.
Notation "' pat <- c ;; k" := (bind c (fun x => match x with pat => k end))
  (at level 61, pat pattern, c at next level, right associativity) : py_scope.
Open Scope py_scope.

(** The value a computation returns, when it returns. *)
Definition result {A : Type} (r : outcome A * rng) : outcome A := fst r.

(** [random.randint(a, b)]: an integer [n] with [a <= n <= b]; an empty
    range raises [ValueError]. *)
Definition randint (a b : Z) : py Z :=
  fun g =>
    if b <? a then (Raises "ValueError"%string, g)
    else (Returns (a + tape g (cursor g) mod (b - a + 1)), advance g).

(** The integer [randint a b] draws from generator [g]. *)
Definition drawn (a b : Z) (g : rng) : Z := a + tape g (cursor g) mod (b - a + 1).

(** [a // b] on integers. *)
Definition floordiv (a b : Z) : py Z :=
  if b =? 0 then raise "ZeroDivisionError"%string else ret (a / b).

(** ** homomorphic_simple.py *)

Module Simple.

(** [encrypt(value, secret_key, multiplier)] *)
Definition encrypt (value secret_key multiplier : Z) : py (Z * Z) :=
  noise <- randint 1 100 ;;
  let encrypted_value := (value * multiplier) + secret_key + noise in
  ret (encrypted_value, noise).

(** [decrypt(encrypted_value, noise, secret_key, multiplier)] *)
Definition decrypt (encrypted_value noise secret_key multiplier : Z) : py Z :=
  original_value <- floordiv (encrypted_value - secret_key - noise) multiplier ;;
  ret original_value.

(** [add_encrypted_numbers(encrypted1, noise1, encrypted2, noise2)] *)
Definition add_encrypted_numbers (encrypted1 noise1 encrypted2 noise2 : Z)
  : py (Z * Z) :=
  let result := encrypted1 + encrypted2 in
  let result_noise := noise1 + noise2 in
  ret (result, result_noise).

(** The module-level key generation (lines 30-31). *)
Definition generate_keys : py (Z * Z) :=
  secret_key <- randint 1000 9999 ;;
  multiplier <- randint 100 500 ;;
  ret (secret_key, multiplier).

(** The banking scenario the script runs at import: three balances are
    encrypted, added in two steps and the sum is decrypted.  The script
    prints; what it prints last is [decrypted_total] and whether
    [actual_total == decrypted_total], which are returned here. *)
Definition banking_scenario : py (Z * bool) :=
  '(secret_key, multiplier) <- generate_keys ;;
  let alice_balance := 5000 in
  let bob_balance := 12000 in
  let carol_balance := 8500 in
  let actual_total := alice_balance + bob_balance + carol_balance in
  '(alice_encrypted, alice_noise) <- encrypt alice_balance secret_key multiplier ;;
  '(bob_encrypted, bob_noise) <- encrypt bob_balance secret_key multiplier ;;
  '(carol_encrypted, carol_noise) <- encrypt carol_balance secret_key multiplier ;;
  '(sum_alice_bob, noise_alice_bob) <-
    add_encrypted_numbers alice_encrypted alice_noise bob_encrypted bob_noise ;;
  '(final_encrypted_sum, final_noise) <-
    add_encrypted_numbers sum_alice_bob noise_alice_bob carol_encrypted carol_noise ;;
  decrypted_total <- decrypt final_encrypted_sum final_noise secret_key multiplier ;;
  ret (decrypted_total, actual_total =? decrypted_total).

End Simple.

(** ** homomorphic_step3.py *)

Module Step3.

(** The object state of [SimpleHomomorphicEncryption]. *)
Record SimpleHomomorphicEncryption : Type := {
  secret_key : Z;
  multiplier : Z
}.

(** [__init__] *)
Definition init : py SimpleHomomorphicEncryption :=
  sk <- randint 1000 9999 ;;
  m <- randint 100 500 ;;
  ret {| secret_key := sk; multiplier := m |}.

(** [encrypt(self, value)] *)
Definition encrypt (self : SimpleHomomorphicEncryption) (value : Z) : py (Z * Z) :=
  noise <- randint 1 100 ;;
  let encrypted := (value * multiplier self) + secret_key self + noise in
  ret (encrypted, noise).

(** [decrypt(self, encrypted_value, noise)] *)
Definition decrypt (self : SimpleHomomorphicEncryption) (encrypted_value noise : Z)
  : py Z :=
  decrypted <- floordiv (encrypted_value - secret_key self - noise) (multiplier self) ;;
  ret decrypted.

(** [homomorphic_add(self, encrypted1, encrypted2)] *)
Definition homomorphic_add (self : SimpleHomomorphicEncryption)
    (encrypted1 encrypted2 : Z * Z) : py (Z * Z) :=
  let '(value1, noise1) := encrypted1 in
  let '(value2, noise2) := encrypted2 in
  let result_value := value1 + value2 in
  let result_noise := noise1 + noise2 in
  ret (result_value, result_noise).

(** The loop of lines 109-111: every balance is encrypted in turn. *)
Fixpoint encrypt_all (self : SimpleHomomorphicEncryption) (balances : list Z)
  : py (list (Z * Z)) :=
  match balances with
  | [] => ret []
  | balance :: rest =>
      encrypted_value <- encrypt self balance ;;
      others <- encrypt_all self rest ;;
      ret (encrypted_value :: others)
  end.

(** The loop of lines 135-140, from the running sum on. *)
Fixpoint add_rest (self : SimpleHomomorphicEncryption) (encrypted_sum : Z * Z)
    (rest : list (Z * Z)) : py (Z * Z) :=
  match rest with
  | [] => ret encrypted_sum
  | e :: rest' =>
      encrypted_sum' <- homomorphic_add self encrypted_sum e ;;
      add_rest self encrypted_sum' rest'
  end.

(** Lines 128-140: [encrypted_list[0]] starts the sum, which fails with
    [IndexError] on an empty list. *)
Definition server_sum (self : SimpleHomomorphicEncryption)
    (encrypted_list : list (Z * Z)) : py (Z * Z) :=
  match encrypted_list with
  | [] => raise "IndexError"%string
  | first :: rest => add_rest self first rest
  end.

(** The balances of the dictionary [customers], in insertion order. *)
Definition customers : list Z := [5000; 12000; 8500].

(** The scenario of the script: it returns [decrypted_total] and the test
    [abs(actual_total - decrypted_total) == 0]. *)
Definition banking_scenario : py (Z * bool) :=
  crypto <- init ;;
  let actual_total := fold_right Z.add 0 customers in
  encrypted_list <- encrypt_all crypto customers ;;
  encrypted_sum <- server_sum crypto encrypted_list ;;
  decrypted_total <- decrypt crypto (fst encrypted_sum) (snd encrypted_sum) ;;
  ret (decrypted_total, Z.abs (actual_total - decrypted_total) =? 0).

End Step3.

(** ** homomorphic_banking_demo.py *)

(** The demo computes with the ciphertext objects of an external library;
    only their [+] is visible at the call sites, so the server's loop is
    embedded over any ciphertext type with an addition. *)
Module Banking.

Section Server.

Variable ciphertext : Type.

(** [c1 + c2] on ciphertext objects. *)
Variable cipher_add : ciphertext -> ciphertext -> py ciphertext.

(** One dictionary of the list [encrypted_data]. *)
Record entry : Type := {
  customer_id : Z;
  customer_name : string;
  encrypted_balance : ciphertext
}.

Fixpoint add_from (encrypted_sum : ciphertext) (rest : list entry) : py ciphertext :=
  match rest with
  | [] => ret encrypted_sum
  | e :: rest' =>
      encrypted_sum' <- cipher_add encrypted_sum (encrypted_balance e) ;;
      add_from encrypted_sum' rest'
  end.

(** [CentralServer.compute_encrypted_sum] *)
Definition compute_encrypted_sum (encrypted_data : list entry)
  : py (ciphertext * nat) :=
  match encrypted_data with
  | [] => raise "ValueError"%string
  | first :: rest =>
      encrypted_sum <- add_from (encrypted_balance first) rest ;;
      ret (encrypted_sum, List.length encrypted_data)
  end.

End Server.

Arguments customer_id {ciphertext} e.
Arguments customer_name {ciphertext} e.
Arguments encrypted_balance {ciphertext} e.

End Banking.

(** ** Ways of combining ciphertexts *)

(** A ciphertext of the linear scheme, as it travels: the encrypted value
    with its noise. *)
Definition cipher : Type := (Z * Z)%type.

(** [add_encrypted_numbers] on two travelling ciphertexts. *)
Definition cipher_plus (c1 c2 : cipher) : py cipher :=
  Simple.add_encrypted_numbers (fst c1) (snd c1) (fst c2) (snd c2).

(** An aggregation plan fixes in which order and in which grouping the
    ciphertexts are added: [(A+B)+C], [A+(B+C)], [(B+A)+C], ... *)
Inductive plan : Type :=
| Leaf (c : cipher)
| Plus (l r : plan).

Fixpoint leaves (p : plan) : list cipher :=
  match p with
  | Leaf c => [c]
  | Plus l r => leaves l ++ leaves r
  end.

(** Carrying a plan out with [add_encrypted_numbers]. *)
Fixpoint combine (p : plan) : py cipher :=
  match p with
  | Leaf c => ret c
  | Plus l r =>
      cl <- combine l ;;
      cr <- combine r ;;
      cipher_plus cl cr
  end.

(** Decrypting the outcome of a plan. *)
Definition combine_decrypt (secret_key multiplier : Z) (p : plan) : py Z :=
  c <- combine p ;;
  Simple.decrypt (fst c) (snd c) secret_key multiplier.

(** The grouping of the scripts: the first ciphertext, then one more at a
    time. *)
Fixpoint left_plan (acc : plan) (rest : list cipher) : plan :=
  match rest with
  | [] => acc
  | c :: rest' => left_plan (Plus acc (Leaf c)) rest'
  end.

(** ** Two encryptions of one plaintext *)

Definition encrypt_twice (value secret_key multiplier : Z) : py (cipher * cipher) :=
  c1 <- Simple.encrypt value secret_key multiplier ;;
  c2 <- Simple.encrypt value secret_key multiplier ;;
  ret (c1, c2).

(** Encrypting and decrypting again. *)
Definition roundtrip (value secret_key multiplier : Z) : py Z :=
  '(encrypted_value, noise) <- Simple.encrypt value secret_key multiplier ;;
  Simple.decrypt encrypted_value noise secret_key multiplier.

(** Encrypting two plaintexts, adding the ciphertexts, decrypting the sum. *)
Definition add_then_decrypt (m1 m2 secret_key multiplier : Z) : py Z :=
  '(encrypted1, noise1) <- Simple.encrypt m1 secret_key multiplier ;;
  '(encrypted2, noise2) <- Simple.encrypt m2 secret_key multiplier ;;
  '(result, result_noise) <-
    Simple.add_encrypted_numbers encrypted1 noise1 encrypted2 noise2 ;;
  Simple.decrypt result result_noise secret_key multiplier.

(** The values [random.randint(1, 100)] can return. *)
Definition noise_values : list Z := map Z.of_nat (seq 1 100).

Definition noise_pairs : list (Z * Z) := list_prod noise_values noise_values.

(** A generator whose next two calls of [randint 1 100] give [n1], [n2]. *)
Definition rng_with_noise (n1 n2 : Z) : rng := rng_of [n1 - 1; n2 - 1].

(** Do two encryptions of [value] with the noise pair [p] give the same
    encrypted value? *)
Definition same_ciphertext (value secret_key multiplier : Z) (p : Z * Z) : bool :=
  match result (encrypt_twice value secret_key multiplier
                  (rng_with_noise (fst p) (snd p))) with
  | Returns (c1, c2) => fst c1 =? fst c2
  | Raises _ => false
  end.

Definition collisions (value secret_key multiplier : Z) : list (Z * Z) :=
  filter (same_ciphertext value secret_key multiplier) noise_pairs.

(** The keys the scripts generate. *)
Definition generated_key (secret_key multiplier : Z) : Prop :=
  1000 <= secret_key <= 9999 /\ 100 <= multiplier <= 500.

(** The same round trip through the methods of the class. *)
Definition roundtrip_step3 (self : Step3.SimpleHomomorphicEncryption) (value : Z)
  : py Z :=
  '(encrypted_value, noise) <- Step3.encrypt self value ;;
  Step3.decrypt self encrypted_value noise.

(** Two producers with keys of their own, and a server adding what they
    send. *)
Definition add_across_keys (m1 sk1 mult1 m2 sk2 mult2 : Z) : py cipher :=
  c1 <- Simple.encrypt m1 sk1 mult1 ;;
  c2 <- Simple.encrypt m2 sk2 mult2 ;;
  cipher_plus c1 c2.

(** Componentwise sum of a list of travelling ciphertexts. *)
Definition total (cs : list cipher) : cipher :=
  fold_right (fun c acc => (fst c + fst acc, snd c + snd acc)) (0, 0) cs.

(** ** The pipeline of homomorphic_step3.py for any balances *)

(** Lines 107-155 with the object and the balances left open: the branch
    encrypts every balance, the server adds the ciphertexts from the first
    one on, headquarters decrypts the sum. *)
Definition aggregate (self : Step3.SimpleHomomorphicEncryption) (balances : list Z)
  : py Z :=
  encrypted_list <- Step3.encrypt_all self balances ;;
  encrypted_sum <- Step3.server_sum self encrypted_list ;;
  Step3.decrypt self (fst encrypted_sum) (snd encrypted_sum).

(** [sum(customers.values())] *)
Definition sum_of (balances : list Z) : Z := fold_right Z.add 0 balances.

(** ** The branch of homomorphic_banking_demo.py *)

(** The branch hands each balance to [public_key.encrypt] of the external
    library and never computes with it, so the balance type, the ciphertext
    type and the encryption are left open. *)
Module Branch.

Section Branch.

Variable balance : Type.
Variable ciphertext : Type.

(** [self.public_key.encrypt(...)] *)
Variable engine_encrypt : balance -> py ciphertext.

(** [Customer] *)
Record Customer : Type := {
  customer_id : Z;
  name : string;
  customer_balance : balance
}.

(** [BankBranch]; its public key is [engine_encrypt]. *)
Record BankBranch : Type := {
  branch_id : string;
  customers : list Customer
}.

(** [BankBranch.__init__] *)
Definition new_branch (id : string) : BankBranch :=
  {| branch_id := id; customers := [] |}.

(** [add_customer]: [self.customers.append(customer)] *)
Definition add_customer (self : BankBranch) (customer : Customer) : BankBranch :=
  {| branch_id := branch_id self; customers := customers self ++ [customer] |}.

(** One dictionary appended to [encrypted_data], with all four keys. *)
Record encrypted_record : Type := {
  rec_customer_id : Z;
  rec_customer_name : string;
  rec_encrypted_balance : ciphertext;
  rec_original_balance : balance
}.

(** The loop of [encrypt_balances] over the customers still to do, with
    the list built so far. *)
Fixpoint encrypt_loop (todo : list Customer) (encrypted_data : list encrypted_record)
  : py (list encrypted_record) :=
  match todo with
  | [] => ret encrypted_data
  | customer :: rest =>
      encrypted_balance <- engine_encrypt (customer_balance customer) ;;
      encrypt_loop rest
        (encrypted_data ++
         [{| rec_customer_id := customer_id customer;
             rec_customer_name := name customer;
             rec_encrypted_balance := encrypted_balance;
             rec_original_balance := customer_balance customer |}])
  end.

(** [BankBranch.encrypt_balances] *)
Definition encrypt_balances (self : BankBranch) : py (list encrypted_record) :=
  encrypt_loop (customers self) [].

End Branch.

Arguments customer_id {balance} c.
Arguments name {balance} c.
Arguments customer_balance {balance} c.
Arguments branch_id {balance} b.
Arguments customers {balance} b.
Arguments new_branch {balance} id.
Arguments add_customer {balance} self customer.
Arguments rec_customer_id {balance ciphertext} e.
Arguments rec_customer_name {balance ciphertext} e.
Arguments rec_encrypted_balance {balance ciphertext} e.
Arguments rec_original_balance {balance ciphertext} e.
Arguments encrypt_loop {balance ciphertext} engine_encrypt todo encrypted_data.
Arguments encrypt_balances {balance ciphertext} engine_encrypt self.

End Branch.

(** A branch whose engine is the linear scheme under the key (1000, 100). *)
Definition linear_engine (value : Z) : py cipher := Simple.encrypt value 1000 100.

(** ** The interest example of homomorphic_banking_demo.py *)

(** [advanced_example] calls the external library for the keys, for
    encryption, for [+] and [*] on ciphertexts and for decryption; these
    are left open.  The amounts and the tax factor are the literals of the
    script, kept as the rationals they are written as: the script hands
    them to the library and does no arithmetic on them itself before it
    has printed its results. *)
Module Advanced.

Section Engine.

Variables public_key private_key ciphertext : Type.

(** [paillier.generate_paillier_keypair(n_length=...)] *)
Variable generate_paillier_keypair : Z -> py (public_key * private_key).

(** [public_key.encrypt(x)] *)
Variable pk_encrypt : public_key -> Q -> py ciphertext.

(** [c1 + c2] *)
Variable cipher_add : ciphertext -> ciphertext -> py ciphertext.

(** [c * k] *)
Variable cipher_mul : ciphertext -> Q -> py ciphertext.

(** [private_key.decrypt(c)] *)
Variable sk_decrypt : private_key -> ciphertext -> py Q.

(** One dictionary of [accounts]. *)
Record account : Type := { account_name : string; interest : Q }.

Definition accounts : list account :=
  [ {| account_name := "Account A"; interest := 250.50%Q |};
    {| account_name := "Account B"; interest := 180.75%Q |};
    {| account_name := "Account C"; interest := 420.25%Q |} ].

(** The loop of lines 297-300. *)
Fixpoint encrypt_interests (pk : public_key) (todo : list account)
    (encrypted_interests : list ciphertext) : py (list ciphertext) :=
  match todo with
  | [] => ret encrypted_interests
  | acc :: rest =>
      encrypted <- pk_encrypt pk (interest acc) ;;
      encrypt_interests pk rest (encrypted_interests ++ [encrypted])
  end.

(** The loop of lines 305-306. *)
Fixpoint add_interests (encrypted_total : ciphertext) (rest : list ciphertext)
  : py ciphertext :=
  match rest with
  | [] => ret encrypted_total
  | enc :: rest' =>
      encrypted_total' <- cipher_add encrypted_total enc ;;
      add_interests encrypted_total' rest'
  end.

(** [advanced_example]; it returns what it prints, [total_interest] and
    [after_tax]. *)
Definition advanced_example : py (Q * Q) :=
  '(pk, sk) <- generate_paillier_keypair 1024 ;;
  encrypted_interests <- encrypt_interests pk accounts [] ;;
  match encrypted_interests with
  | [] => raise "IndexError"%string
  | first :: rest =>
      encrypted_total <- add_interests first rest ;;
      encrypted_after_tax <- cipher_mul encrypted_total 0.8%Q ;;
      total_interest <- sk_decrypt sk encrypted_total ;;
      after_tax <- sk_decrypt sk encrypted_after_tax ;;
      ret (total_interest, after_tax)
  end.

End Engine.

End Advanced.

(** Is a number a whole number? *)
Definition whole (x : Q) : bool := (Z.pos (Qden (Qred x)) =? 1)%Z.

(** An engine that computes in the clear, to run the example with. *)
Definition clear_keypair (n_length : Z) : py (unit * unit) := ret (tt, tt).

Definition clear_encrypt (pk : unit) (x : Q) : py Q := ret x.

Definition clear_add (a b : Q) : py Q := ret (Qred (a + b)).

Definition clear_mul (a k : Q) : py Q := ret (Qred (a * k)).

Definition clear_decrypt (sk : unit) (c : Q) : py Q := ret c.

(** The same engine with a [*] that takes whole multipliers only. *)
Definition whole_only_mul (a k : Q) : py Q :=
  if whole k then ret (Qred (a * k)) else raise "TypeError"%string.

(** ** The engine the specification describes *)

(** The ciphertext operations behind [homomorphic_banking_demo.py] belong
    to a library that is not part of the repository; the definitions of
    this module follow sections 3 and 4 of the specification. *)
Module Paillier.

(** Modelled from the spec: the public key, a modulus [n] and the
    parameter [g] (section 3); the library's own key classes are not in
    the repository. *)
Record PublicKey : Type := { n : Z; g : Z }.

(** Modelled from the spec: the private key, [lambda] and the decryption
    exponent [mu] (section 3). *)
Record PrivateKey : Type := { lambda : Z; mu : Z }.

(** Modelled from the spec: [L(x) = (x - 1) / n] (section 4.1). *)
Definition L (n x : Z) : Z := (x - 1) / n.

(** Modelled from the spec: key generation once the primes are sampled
    (section 4.1): [n = p * q], [lambda = lcm(p - 1, q - 1)], [g = n + 1],
    [mu = (L(g^lambda mod n^2))^-1 mod n]. *)
Definition keypair (p q : Z) : PublicKey * PrivateKey :=
  let n := p * q in
  let lambda := Z.lcm (p - 1) (q - 1) in
  let g := n + 1 in
  let mu := Z.invmod (L n (g ^ lambda mod n ^ 2)) n in
  ({| n := n; g := g |}, {| lambda := lambda; mu := mu |}).

(** Modelled from the spec: the primes key generation accepts (section
    4.1), two different primes with [gcd(pq, (p-1)(q-1)) = 1]. *)
Definition valid_primes (p q : Z) : Prop :=
  Z.prime p /\ Z.prime q /\ p <> q /\ Z.gcd (p * q) ((p - 1) * (q - 1)) = 1.

(** Modelled from the spec: encryption with blinding factor [r],
    [c = g^m * r^n mod n^2] (section 4.2). *)
Definition encrypt (pk : PublicKey) (m r : Z) : Z :=
  (g pk ^ m * r ^ n pk) mod n pk ^ 2.

(** Modelled from the spec: [scalar_multiply(c, k)], [c^k mod n^2] for a
    non-negative integer [k] and nothing otherwise (section 4.3). *)
Definition scalar_multiply (pk : PublicKey) (c k : Z) : option Z :=
  if k <? 0 then None else Some (c ^ k mod n pk ^ 2).

(** Modelled from the spec: decryption,
    [m = L(c^lambda mod n^2) * mu mod n] (section 4.4). *)
Definition decrypt (sk : PrivateKey) (pk : PublicKey) (c : Z) : Z :=
  (L (n pk) (c ^ lambda sk mod n pk ^ 2) * mu sk) mod n pk.

End Paillier.

(** ** Facts about the effects *)

Lemma randint_run (a b : Z) (g : rng) :
  a <= b -> randint a b g = (Returns (drawn a b g), advance g).
Proof.
  intros Hab. unfold randint, drawn.
  destruct (Z.ltb_spec b a) as [Hlt | _]; [lia | reflexivity].
Qed.

Lemma drawn_range (a b : Z) (g : rng) : a <= b -> a <= drawn a b g <= b.
Proof.
  intros Hab. unfold drawn.
  pose proof (Z.mod_pos_bound (tape g (cursor g)) (b - a + 1)). lia.
Qed.

(** Every integer of the range is drawn by some generator. *)
Lemma drawn_onto (a b n : Z) :
  a <= n <= b -> drawn a b (rng_of [n - a]) = n.
Proof.
  intros Hn. unfold drawn, rng_of. simpl.
  rewrite Z.mod_small by lia. lia.
Qed.

Lemma floordiv_run (a b : Z) (g : rng) :
  b <> 0 -> floordiv a b g = (Returns (a / b), g).
Proof.
  intros Hb. unfold floordiv.
  destruct (Z.eqb_spec b 0) as [E | _]; [contradiction | reflexivity].
Qed.

(** ** Facts about [Simple] *)

Lemma simple_encrypt_run (value secret_key multiplier : Z) (g : rng) :
  Simple.encrypt value secret_key multiplier g =
  (Returns (value * multiplier + secret_key + drawn 1 100 g, drawn 1 100 g),
   advance g).
Proof.
  unfold Simple.encrypt, bind. rewrite randint_run by lia. reflexivity.
Qed.

Lemma simple_decrypt_run (encrypted_value noise secret_key multiplier : Z) (g : rng) :
  multiplier <> 0 ->
  Simple.decrypt encrypted_value noise secret_key multiplier g =
  (Returns ((encrypted_value - secret_key - noise) / multiplier), g).
Proof.
  intros Hm. unfold Simple.decrypt, bind. rewrite floordiv_run by assumption.
  reflexivity.
Qed.

Lemma simple_add_run (encrypted1 noise1 encrypted2 noise2 : Z) (g : rng) :
  Simple.add_encrypted_numbers encrypted1 noise1 encrypted2 noise2 g =
  (Returns (encrypted1 + encrypted2, noise1 + noise2), g).
Proof. reflexivity. Qed.

(** The class of [homomorphic_step3.py] computes what the functions of
    [homomorphic_simple.py] compute, with the keys read from the object. *)
Lemma step3_encrypt_simple (self : Step3.SimpleHomomorphicEncryption) (value : Z) :
  Step3.encrypt self value =
  Simple.encrypt value (Step3.secret_key self) (Step3.multiplier self).
Proof. reflexivity. Qed.

Lemma step3_decrypt_simple (self : Step3.SimpleHomomorphicEncryption)
    (encrypted_value noise : Z) :
  Step3.decrypt self encrypted_value noise =
  Simple.decrypt encrypted_value noise (Step3.secret_key self) (Step3.multiplier self).
Proof. reflexivity. Qed.

Lemma step3_add_simple (self : Step3.SimpleHomomorphicEncryption) (c1 c2 : cipher) :
  Step3.homomorphic_add self c1 c2 = cipher_plus c1 c2.
Proof. destruct c1, c2. reflexivity. Qed.

Lemma step3_add_run (self : Step3.SimpleHomomorphicEncryption) (c1 c2 : cipher)
    (g : rng) :
  Step3.homomorphic_add self c1 c2 g =
  (Returns (fst c1 + fst c2, snd c1 + snd c2), g).
Proof. destruct c1, c2. reflexivity. Qed.

(** Running a sequence: each rule rewrites the first call of a [bind]. *)
Ltac py_run :=
  repeat first
    [ rewrite simple_encrypt_run
    | rewrite simple_add_run
    | rewrite simple_decrypt_run by assumption
    | rewrite randint_run by lia
    | progress cbv beta iota zeta delta [bind ret result fst snd] ].

(** Division undoes the multiplication by the key, whatever the sign. *)
Lemma unblind (value secret_key multiplier noise : Z) :
  multiplier <> 0 ->
  (value * multiplier + secret_key + noise - secret_key - noise) / multiplier = value.
Proof.
  intros Hm.
  replace (value * multiplier + secret_key + noise - secret_key - noise)
    with (value * multiplier) by ring.
  apply Z.div_mul. exact Hm.
Qed.

Lemma roundtrip_run (value secret_key multiplier : Z) (g : rng) :
  multiplier <> 0 ->
  roundtrip value secret_key multiplier g = (Returns value, advance g).
Proof.
  intros Hm. unfold roundtrip. py_run.
  rewrite unblind by assumption. reflexivity.
Qed.

(** Every noise value of the range occurs in some run of [encrypt]. *)
Lemma every_noise_is_drawn (value secret_key multiplier noise : Z) :
  1 <= noise <= 100 ->
  result (Simple.encrypt value secret_key multiplier (rng_of [noise - 1])) =
  Returns (value * multiplier + secret_key + noise, noise).
Proof.
  intros Hn. rewrite simple_encrypt_run. unfold result. cbn [fst].
  rewrite (drawn_onto 1 100 noise Hn). reflexivity.
Qed.

(** ** Round trip *)

(** C2.  A plaintext that is encrypted and then decrypted with the same
    secret key and multiplier comes back unchanged, whatever noise the
    generator hands out; this holds for the functions of
    [homomorphic_simple.py] and for the methods of the class in
    [homomorphic_step3.py].  Decryption divides by the multiplier, which
    key generation takes from 100..500, so it is not zero. *)
Theorem roundtrip_returns_plaintext
    (value secret_key multiplier : Z) (g : rng) :
  multiplier <> 0 ->
  roundtrip value secret_key multiplier g = (Returns value, advance g) /\
  roundtrip_step3
    {| Step3.secret_key := secret_key; Step3.multiplier := multiplier |} value g =
  (Returns value, advance g).
Proof.
  intros Hm. split.
  - apply roundtrip_run. exact Hm.
  - unfold roundtrip_step3.
    rewrite step3_encrypt_simple. cbn [Step3.secret_key Step3.multiplier].
    apply (roundtrip_run value secret_key multiplier g Hm).
Qed.

Lemma roundtrip_returns_plaintext_witness :
  roundtrip (-8500) 1234 250 (rng_of [41]) = (Returns (-8500), advance (rng_of [41])) /\
  roundtrip_step3 {| Step3.secret_key := 1234; Step3.multiplier := 250 |} (-8500)
    (rng_of [41]) = (Returns (-8500), advance (rng_of [41])).
Proof.
  apply (roundtrip_returns_plaintext (-8500) 1234 250 (rng_of [41])). lia.
Defined.

(** ** Adding two ciphertexts and decrypting the sum *)

(** A generated secret key is at least twice the multiplier. *)
Lemma key_quotient_bounds (secret_key multiplier : Z) :
  generated_key secret_key multiplier ->
  2 <= secret_key / multiplier <= 99.
Proof.
  intros [Hs Hm]. split.
  - apply Z.div_le_lower_bound; lia.
  - assert (secret_key / multiplier < 100); [| lia].
    apply Z.div_lt_upper_bound; lia.
Qed.

Lemma add_then_decrypt_run (m1 m2 secret_key multiplier : Z) (g : rng) :
  multiplier <> 0 ->
  add_then_decrypt m1 m2 secret_key multiplier g =
  (Returns (m1 + m2 + secret_key / multiplier), advance (advance g)).
Proof.
  intros Hm. unfold add_then_decrypt. py_run.
  set (n1 := drawn 1 100 g). set (n2 := drawn 1 100 (advance g)).
  replace (m1 * multiplier + secret_key + n1 + (m2 * multiplier + secret_key + n2)
           - secret_key - (n1 + n2))
    with ((m1 + m2) * multiplier + secret_key) by ring.
  rewrite Z.div_add_l by assumption. reflexivity.
Qed.

(** C1.  With any key the scripts can generate, encrypting two plaintexts,
    adding the ciphertexts with [add_encrypted_numbers] and decrypting the
    sum returns [m1 + m2 + secret_key // multiplier]: each ciphertext
    carries the secret key once, the sum carries it twice, and [decrypt]
    takes it off once.  The surplus is at least 2, so the decrypted value
    is never [m1 + m2]. *)
Theorem add_then_decrypt_overshoots
    (m1 m2 secret_key multiplier : Z) (g : rng) :
  generated_key secret_key multiplier ->
  result (add_then_decrypt m1 m2 secret_key multiplier g) =
    Returns (m1 + m2 + secret_key / multiplier) /\
  2 <= secret_key / multiplier /\
  result (add_then_decrypt m1 m2 secret_key multiplier g) <> Returns (m1 + m2).
Proof.
  intros Hk. pose proof (key_quotient_bounds _ _ Hk) as Hq.
  destruct Hk as [Hs Hm].
  rewrite add_then_decrypt_run by lia. unfold result. cbn [fst].
  repeat split; [lia |].
  intros E. injection E as E. lia.
Qed.

Lemma add_then_decrypt_overshoots_witness :
  result (add_then_decrypt 5000 12000 1000 100 (rng_of [0; 0])) =
    Returns (5000 + 12000 + 1000 / 100) /\
  2 <= 1000 / 100 /\
  result (add_then_decrypt 5000 12000 1000 100 (rng_of [0; 0])) <>
    Returns (5000 + 12000).
Proof.
  apply (add_then_decrypt_overshoots 5000 12000 1000 100 (rng_of [0; 0])).
  unfold generated_key. lia.
Defined.

(** The failing run in numbers: 5000 and 12000 under secret key 1000 and
    multiplier 100 decrypt to 17010. *)
Example add_then_decrypt_5000_12000 :
  result (add_then_decrypt 5000 12000 1000 100 (rng_of [0; 0])) = Returns 17010.
Proof. reflexivity. Qed.

(** The script's own scenario never passes its own test: whatever the
    generator draws, the decrypted total of 5000, 12000 and 8500 exceeds
    25500 and [actual_total == decrypted_total] is false. *)
Lemma simple_scenario_never_matches (g : rng) :
  exists decrypted_total,
    result (Simple.banking_scenario g) = Returns (decrypted_total, false) /\
    25500 < decrypted_total.
Proof.
  unfold Simple.banking_scenario, Simple.generate_keys. py_run.
  set (sk := drawn 1000 9999 g).
  set (m := drawn 100 500 (advance g)).
  assert (Hs : 1000 <= sk <= 9999) by (apply drawn_range; lia).
  assert (Hm : 100 <= m <= 500) by (apply drawn_range; lia).
  assert (Hm0 : m <> 0) by lia.
  py_run.
  set (g2 := advance (advance g)).
  set (a := drawn 1 100 g2).
  set (b := drawn 1 100 (advance g2)).
  set (c := drawn 1 100 (advance (advance g2))).
  replace (5000 * m + sk + a + (12000 * m + sk + b) + (8500 * m + sk + c)
           - sk - (a + b + c))
    with (25500 * m + 2 * sk) by ring.
  rewrite Z.div_add_l by assumption.
  assert (Hq : 2 <= 2 * sk / m) by (apply Z.div_le_lower_bound; lia).
  exists (25500 + 2 * sk / m). split; [| lia].
  replace (5000 + 12000 + 8500) with 25500 by reflexivity.
  destruct (Z.eqb_spec 25500 (25500 + 2 * sk / m)) as [E | _]; [lia | reflexivity].
Qed.

(** The class version fails its test in the same way. *)
Lemma step3_scenario_never_matches (g : rng) :
  exists decrypted_total,
    result (Step3.banking_scenario g) = Returns (decrypted_total, false) /\
    25500 < decrypted_total.
Proof.
  unfold Step3.banking_scenario, Step3.init. py_run.
  set (sk := drawn 1000 9999 g).
  set (m := drawn 100 500 (advance g)).
  assert (Hs : 1000 <= sk <= 9999) by (apply drawn_range; lia).
  assert (Hm : 100 <= m <= 500) by (apply drawn_range; lia).
  assert (Hm0 : m <> 0) by lia.
  unfold Step3.customers. cbn [Step3.encrypt_all].
  rewrite !step3_encrypt_simple. cbn [Step3.secret_key Step3.multiplier].
  py_run.
  cbn [Step3.server_sum Step3.add_rest]. py_run.
  repeat (rewrite step3_add_run; py_run).
  rewrite step3_decrypt_simple. cbn [Step3.secret_key Step3.multiplier].
  py_run.
  set (g2 := advance (advance g)).
  set (a := drawn 1 100 g2).
  set (b := drawn 1 100 (advance g2)).
  set (c := drawn 1 100 (advance (advance g2))).
  replace (5000 * m + sk + a + (12000 * m + sk + b) + (8500 * m + sk + c)
           - sk - (a + b + c))
    with (25500 * m + 2 * sk) by ring.
  rewrite Z.div_add_l by assumption.
  assert (Hq : 2 <= 2 * sk / m) by (apply Z.div_le_lower_bound; lia).
  exists (25500 + 2 * sk / m). split; [| lia].
  cbn [fold_right].
  replace (5000 + (12000 + (8500 + 0))) with 25500 by reflexivity.
  destruct (Z.eqb_spec (Z.abs (25500 - (25500 + 2 * sk / m))) 0) as [E | _];
    [lia | reflexivity].
Qed.

(** ** Order of plaintexts and order of ciphertexts *)

(** C10.  For every secret key, every multiplier from 100 to 500 and all
    plaintexts [v1 < v2], each run of [encrypt] on [v1] gives a smaller
    encrypted value than each run of [encrypt] on [v2], whatever noise the
    two runs draw from 1..100: the multiplier outweighs the largest
    difference of two noise values.  The same holds for the method of the
    class. *)
Theorem encrypt_strictly_monotone
    (secret_key multiplier v1 v2 : Z) (g1 g2 : rng) :
  100 <= multiplier <= 500 ->
  v1 < v2 ->
  exists c1 n1 c2 n2,
    result (Simple.encrypt v1 secret_key multiplier g1) = Returns (c1, n1) /\
    result (Simple.encrypt v2 secret_key multiplier g2) = Returns (c2, n2) /\
    result (Step3.encrypt
              {| Step3.secret_key := secret_key; Step3.multiplier := multiplier |}
              v1 g1) = Returns (c1, n1) /\
    result (Step3.encrypt
              {| Step3.secret_key := secret_key; Step3.multiplier := multiplier |}
              v2 g2) = Returns (c2, n2) /\
    1 <= n1 <= 100 /\ 1 <= n2 <= 100 /\
    c1 < c2.
Proof.
  intros Hm Hv.
  pose proof (drawn_range 1 100 g1 ltac:(lia)) as H1.
  pose proof (drawn_range 1 100 g2 ltac:(lia)) as H2.
  exists (v1 * multiplier + secret_key + drawn 1 100 g1), (drawn 1 100 g1),
         (v2 * multiplier + secret_key + drawn 1 100 g2), (drawn 1 100 g2).
  rewrite !step3_encrypt_simple. cbn [Step3.secret_key Step3.multiplier].
  rewrite !simple_encrypt_run. unfold result. cbn [fst].
  repeat split; try lia.
  assert (v1 * multiplier + multiplier <= v2 * multiplier) by nia.
  lia.
Qed.

Lemma encrypt_strictly_monotone_witness :
  exists c1 n1 c2 n2,
    result (Simple.encrypt 7 1000 100 (rng_of [99])) = Returns (c1, n1) /\
    result (Simple.encrypt 8 1000 100 (rng_of [0])) = Returns (c2, n2) /\
    result (Step3.encrypt {| Step3.secret_key := 1000; Step3.multiplier := 100 |}
              7 (rng_of [99])) = Returns (c1, n1) /\
    result (Step3.encrypt {| Step3.secret_key := 1000; Step3.multiplier := 100 |}
              8 (rng_of [0])) = Returns (c2, n2) /\
    1 <= n1 <= 100 /\ 1 <= n2 <= 100 /\
    c1 < c2.
Proof.
  apply (encrypt_strictly_monotone 1000 100 7 8 (rng_of [99]) (rng_of [0])); lia.
Defined.

(** The closest the two can get: noise 100 on 7 and noise 1 on 8. *)
Example encrypt_7_8_closest :
  result (Simple.encrypt 7 1000 100 (rng_of [99])) = Returns (1800, 100) /\
  result (Simple.encrypt 8 1000 100 (rng_of [0])) = Returns (1801, 1).
Proof. split; reflexivity. Qed.

(** ** What encryption reads *)

(** C4, as stated, fails: with the same plaintext, the same multiplier and
    the same generator state, the secret keys 1000 and 2000 give different
    ciphertexts. *)
Lemma encrypt_reads_secret_key :
  result (Simple.encrypt 5000 1000 100 (rng_of [0])) = Returns (501001, 1) /\
  result (Simple.encrypt 5000 2000 100 (rng_of [0])) = Returns (502001, 1) /\
  result (Simple.encrypt 5000 1000 100 (rng_of [0])) <>
  result (Simple.encrypt 5000 2000 100 (rng_of [0])).
Proof.
  repeat split. intros E. discriminate E.
Qed.

(** C4, amended.  [encrypt] is a function of the plaintext, the secret key,
    the multiplier and the noise it draws.  With plaintext, multiplier and
    generator state fixed, two secret keys give encrypted values that
    differ by exactly the difference of the keys, so the ciphertexts agree
    only when the keys do. *)
Theorem encrypt_shifts_with_secret_key
    (value sk1 sk2 multiplier : Z) (g : rng) :
  exists c1 c2 noise,
    result (Simple.encrypt value sk1 multiplier g) = Returns (c1, noise) /\
    result (Simple.encrypt value sk2 multiplier g) = Returns (c2, noise) /\
    c1 - c2 = sk1 - sk2 /\
    (c1 = c2 <-> sk1 = sk2).
Proof.
  exists (value * multiplier + sk1 + drawn 1 100 g),
         (value * multiplier + sk2 + drawn 1 100 g), (drawn 1 100 g).
  rewrite !simple_encrypt_run. unfold result. cbn [fst].
  repeat split; lia.
Qed.

(** ** What the operations check *)

(** C5, as stated, fails: ciphertexts made under the keys (1000, 100) and
    (2000, 200) are added without complaint. *)
Lemma add_mixes_keys :
  result (add_across_keys 5000 1000 100 5000 2000 200 (rng_of [0; 0])) =
    Returns (1503002, 2) /\
  result (add_across_keys 5000 1000 100 5000 2000 200 (rng_of [0; 0])) <>
    Raises "KeyMismatchError".
Proof.
  split; [reflexivity | intros E; discriminate E].
Qed.

Lemma cipher_plus_run (c1 c2 : cipher) (g : rng) :
  cipher_plus c1 c2 g = (Returns (fst c1 + fst c2, snd c1 + snd c2), g).
Proof. reflexivity. Qed.

(** C5, amended.  Addition validates nothing: it takes no key, returns the
    componentwise sum of any two operands and never fails, also when the
    operands were encrypted under different keys; the method of the class
    ignores its object. *)
Theorem add_never_rejects
    (m1 sk1 mult1 m2 sk2 mult2 : Z) (c1 c2 : cipher)
    (self : Step3.SimpleHomomorphicEncryption) (g : rng) :
  result (add_across_keys m1 sk1 mult1 m2 sk2 mult2 g) =
    Returns (m1 * mult1 + sk1 + drawn 1 100 g +
             (m2 * mult2 + sk2 + drawn 1 100 (advance g)),
             drawn 1 100 g + drawn 1 100 (advance g)) /\
  Simple.add_encrypted_numbers (fst c1) (snd c1) (fst c2) (snd c2) g =
    (Returns (fst c1 + fst c2, snd c1 + snd c2), g) /\
  Step3.homomorphic_add self c1 c2 g =
    (Returns (fst c1 + fst c2, snd c1 + snd c2), g).
Proof.
  split; [| split].
  - unfold add_across_keys. py_run. rewrite cipher_plus_run. reflexivity.
  - reflexivity.
  - apply step3_add_run.
Qed.

(** C6, as stated, fails: whatever modulus is taken to bound the
    plaintexts, [encrypt] does not reject the plaintexts from it upwards. *)
Lemma encrypt_has_no_bound :
  ~ (exists n, 0 < n /\
       forall m secret_key multiplier g,
         n <= m ->
         result (Simple.encrypt m secret_key multiplier g) =
         Raises "InvalidPlaintextError").
Proof.
  intros [n [Hn H]].
  specialize (H n 1000 100 (rng_of [0]) (Z.le_refl n)).
  rewrite simple_encrypt_run in H. discriminate H.
Qed.

(** C6, amended.  [encrypt] checks no range: for every integer plaintext,
    every key and every generator state it returns the ciphertext
    [value * multiplier + secret_key + noise] together with the noise,
    which lies in 1..100; so does the method of the class. *)
Theorem encrypt_accepts_every_plaintext
    (value secret_key multiplier : Z) (g : rng) :
  exists noise,
    1 <= noise <= 100 /\
    Simple.encrypt value secret_key multiplier g =
      (Returns (value * multiplier + secret_key + noise, noise), advance g) /\
    Step3.encrypt
      {| Step3.secret_key := secret_key; Step3.multiplier := multiplier |} value g =
      (Returns (value * multiplier + secret_key + noise, noise), advance g).
Proof.
  exists (drawn 1 100 g). split; [apply drawn_range; lia |].
  rewrite step3_encrypt_simple. cbn [Step3.secret_key Step3.multiplier].
  split; apply simple_encrypt_run.
Qed.

(** C7, as stated, fails twice.  The ciphertext of the plaintext -5 is a
    valid one and decrypts to -5, which lies in no interval [0, n).  And
    (7, 3) is the ciphertext of no plaintext under the key (1000, 100),
    yet [decrypt] returns -10 for it. *)
Lemma decrypt_checks_nothing :
  result (roundtrip (-5) 1000 100 (rng_of [0])) = Returns (-5) /\
  (forall value, 7 <> value * 100 + 1000 + 3) /\
  result (Simple.decrypt 7 3 1000 100 (rng_of [])) = Returns (-10).
Proof.
  split; [reflexivity | split; [intros value; lia | reflexivity]].
Qed.

(** C7, amended.  [decrypt] returns the exact integer
    [(encrypted_value - secret_key - noise) // multiplier], which may be
    negative, for every integer ciphertext and noise; it checks no validity
    and never fails with [DecryptionError].  Its only failure is
    [ZeroDivisionError], for the multiplier zero.  The generator is left
    alone. *)
Theorem decrypt_is_floor_division
    (encrypted_value noise secret_key multiplier : Z) (g : rng) :
  Simple.decrypt encrypted_value noise secret_key multiplier g =
    ((if multiplier =? 0 then Raises "ZeroDivisionError"
      else Returns ((encrypted_value - secret_key - noise) / multiplier)), g) /\
  Step3.decrypt
    {| Step3.secret_key := secret_key; Step3.multiplier := multiplier |}
    encrypted_value noise g =
    Simple.decrypt encrypted_value noise secret_key multiplier g /\
  result (Simple.decrypt encrypted_value noise secret_key multiplier g) <>
    Raises "DecryptionError".
Proof.
  assert (E : Simple.decrypt encrypted_value noise secret_key multiplier g =
    ((if multiplier =? 0 then Raises "ZeroDivisionError"
      else Returns ((encrypted_value - secret_key - noise) / multiplier)), g)).
  { unfold Simple.decrypt, bind, floordiv.
    destruct (multiplier =? 0); reflexivity. }
  split; [exact E | split; [reflexivity |]].
  rewrite E. unfold result. cbn [fst].
  destruct (multiplier =? 0); intros D; discriminate D.
Qed.

(** ** Aggregation in any order *)

Lemma total_app (xs ys : list cipher) :
  total (xs ++ ys) =
  (fst (total xs) + fst (total ys), snd (total xs) + snd (total ys)).
Proof.
  induction xs as [| x xs IH].
  - cbn [app]. change (total []) with (0, 0). cbn [fst snd].
    destruct (total ys) as [e n]. reflexivity.
  - change (total ((x :: xs) ++ ys))
      with (fst x + fst (total (xs ++ ys)), snd x + snd (total (xs ++ ys))).
    change (total (x :: xs)) with (fst x + fst (total xs), snd x + snd (total xs)).
    rewrite IH. cbn [fst snd]. f_equal; ring.
Qed.

Lemma total_perm (xs ys : list cipher) :
  Permutation xs ys -> total xs = total ys.
Proof.
  induction 1 as [| x xs ys _ IH | x y xs | xs ys zs _ IH1 _ IH2].
  - reflexivity.
  - change (total (x :: xs)) with (fst x + fst (total xs), snd x + snd (total xs)).
    change (total (x :: ys)) with (fst x + fst (total ys), snd x + snd (total ys)).
    rewrite IH. reflexivity.
  - cbn [total fold_right fst snd]. f_equal; ring.
  - congruence.
Qed.

Lemma total_singleton (c : cipher) : total [c] = c.
Proof.
  destruct c as [e n]. cbn [total fold_right fst snd].
  rewrite !Z.add_0_r. reflexivity.
Qed.

(** Whatever the plan, the outcome is the componentwise sum of its leaves,
    and the generator is not consulted. *)
Lemma combine_run (p : plan) (g : rng) :
  combine p g = (Returns (total (leaves p)), g).
Proof.
  induction p as [c | l IHl r IHr]; cbn [combine leaves].
  - rewrite total_singleton. reflexivity.
  - unfold bind. rewrite IHl, IHr, cipher_plus_run, total_app. reflexivity.
Qed.

Lemma leaves_left_plan (acc : plan) (rest : list cipher) :
  leaves (left_plan acc rest) = leaves acc ++ rest.
Proof.
  revert acc. induction rest as [| c rest IH]; intros acc; cbn [left_plan].
  - rewrite app_nil_r. reflexivity.
  - rewrite IH. cbn [leaves]. rewrite <- app_assoc. reflexivity.
Qed.

(** The loop of the class script carries out the left-leaning plan. *)
Lemma add_rest_run (self : Step3.SimpleHomomorphicEncryption) (acc : cipher)
    (rest : list cipher) (g : rng) :
  Step3.add_rest self acc rest g = (Returns (total (acc :: rest)), g).
Proof.
  revert acc. induction rest as [| c rest IH]; intros acc; cbn [Step3.add_rest].
  - rewrite total_singleton. reflexivity.
  - unfold bind. rewrite step3_add_run, IH.
    cbn [total fold_right fst snd]. do 2 f_equal. f_equal; ring.
Qed.

Lemma server_sum_is_left_plan (self : Step3.SimpleHomomorphicEncryption)
    (first : cipher) (rest : list cipher) (g : rng) :
  Step3.server_sum self (first :: rest) g = combine (left_plan (Leaf first) rest) g.
Proof.
  cbn [Step3.server_sum]. rewrite add_rest_run, combine_run, leaves_left_plan.
  reflexivity.
Qed.

(** So does the loop of [CentralServer.compute_encrypted_sum], once the
    ciphertext addition is that of the linear scheme. *)
Lemma add_from_run (acc : cipher) (rest : list (Banking.entry cipher)) (g : rng) :
  Banking.add_from cipher cipher_plus acc rest g =
  (Returns (total (acc :: map Banking.encrypted_balance rest)), g).
Proof.
  revert acc. induction rest as [| e rest IH]; intros acc; cbn [Banking.add_from map].
  - rewrite total_singleton. reflexivity.
  - unfold bind. rewrite cipher_plus_run, IH.
    cbn [total fold_right fst snd]. do 2 f_equal. f_equal; ring.
Qed.

Lemma compute_encrypted_sum_is_left_plan
    (first : Banking.entry cipher) (rest : list (Banking.entry cipher)) (g : rng) :
  Banking.compute_encrypted_sum cipher cipher_plus (first :: rest) g =
  (c <- combine (left_plan (Leaf (Banking.encrypted_balance first))
                   (map Banking.encrypted_balance rest)) ;;
   ret (c, S (List.length rest))) g.
Proof.
  cbn [Banking.compute_encrypted_sum]. unfold bind.
  rewrite add_from_run, combine_run, leaves_left_plan. reflexivity.
Qed.

Lemma compute_encrypted_sum_empty (g : rng) :
  result (Banking.compute_encrypted_sum cipher cipher_plus [] g) =
  Raises "ValueError".
Proof. reflexivity. Qed.

(** C8.  Two plans that add the same ciphertexts, in whatever order and
    grouping, end in the same ciphertext, and therefore in the same
    decryption under any key. *)
Theorem aggregation_order_independent
    (secret_key multiplier : Z) (p q : plan) (g : rng) :
  Permutation (leaves p) (leaves q) ->
  exists c,
    combine p g = (Returns c, g) /\
    combine q g = (Returns c, g) /\
    combine_decrypt secret_key multiplier p g =
    combine_decrypt secret_key multiplier q g.
Proof.
  intros Hperm. exists (total (leaves p)).
  pose proof (total_perm _ _ Hperm) as Ht.
  unfold combine_decrypt, bind. rewrite !combine_run, <- Ht.
  repeat split.
Qed.

Lemma aggregation_order_independent_witness :
  exists c,
    combine (Plus (Plus (Leaf (501001, 1)) (Leaf (1201002, 2))) (Leaf (851003, 3)))
      (rng_of []) = (Returns c, rng_of []) /\
    combine (Plus (Leaf (1201002, 2)) (Plus (Leaf (851003, 3)) (Leaf (501001, 1))))
      (rng_of []) = (Returns c, rng_of []) /\
    combine_decrypt 1000 100
      (Plus (Plus (Leaf (501001, 1)) (Leaf (1201002, 2))) (Leaf (851003, 3)))
      (rng_of []) =
    combine_decrypt 1000 100
      (Plus (Leaf (1201002, 2)) (Plus (Leaf (851003, 3)) (Leaf (501001, 1))))
      (rng_of []).
Proof.
  apply (aggregation_order_independent 1000 100
           (Plus (Plus (Leaf (501001, 1)) (Leaf (1201002, 2))) (Leaf (851003, 3)))
           (Plus (Leaf (1201002, 2)) (Plus (Leaf (851003, 3)) (Leaf (501001, 1))))
           (rng_of [])).
  cbn [leaves app].
  apply (Permutation_cons_app [(1201002, 2); (851003, 3)] [] (501001, 1)).
  rewrite app_nil_r. apply Permutation_refl.
Defined.

(** The three groupings of the property, on the ciphertexts of 5000, 12000
    and 8500 under the key (1000, 100) with noise 1, 2 and 3. *)
Example three_groupings_agree :
  let A := Leaf (501001, 1) in
  let B := Leaf (1201002, 2) in
  let C := Leaf (851003, 3) in
  result (combine_decrypt 1000 100 (Plus (Plus A B) C) (rng_of [])) = Returns 25520 /\
  result (combine_decrypt 1000 100 (Plus A (Plus B C)) (rng_of [])) = Returns 25520 /\
  result (combine_decrypt 1000 100 (Plus (Plus B A) C) (rng_of [])) = Returns 25520.
Proof. repeat split. Qed.

(** ** Encrypting the same plaintext twice *)

Lemma encrypt_twice_run (value secret_key multiplier : Z) (g : rng) :
  encrypt_twice value secret_key multiplier g =
  (Returns ((value * multiplier + secret_key + drawn 1 100 g, drawn 1 100 g),
            (value * multiplier + secret_key + drawn 1 100 (advance g),
             drawn 1 100 (advance g))),
   advance (advance g)).
Proof. unfold encrypt_twice. py_run. reflexivity. Qed.

Lemma rng_with_noise_draws (n1 n2 : Z) :
  1 <= n1 <= 100 -> 1 <= n2 <= 100 ->
  drawn 1 100 (rng_with_noise n1 n2) = n1 /\
  drawn 1 100 (advance (rng_with_noise n1 n2)) = n2.
Proof.
  intros H1 H2. unfold drawn, rng_with_noise, rng_of, advance.
  cbn [tape cursor nth].
  rewrite !Z.mod_small by lia. lia.
Qed.

Lemma in_noise_values (n : Z) : In n noise_values -> 1 <= n <= 100.
Proof.
  unfold noise_values. rewrite in_map_iff.
  intros [k [<- Hk]]. apply in_seq in Hk. lia.
Qed.

(** Two encrypted values of one plaintext agree exactly when the noise
    does. *)
Lemma same_ciphertext_iff_same_noise (value secret_key multiplier : Z) (p : Z * Z) :
  In p noise_pairs ->
  same_ciphertext value secret_key multiplier p = (fst p =? snd p).
Proof.
  destruct p as [n1 n2]. unfold noise_pairs. rewrite in_prod_iff.
  intros [H1 H2]. apply in_noise_values in H1. apply in_noise_values in H2.
  unfold same_ciphertext. cbn [fst snd].
  rewrite encrypt_twice_run. unfold result. cbn [fst snd].
  destruct (rng_with_noise_draws n1 n2 H1 H2) as [-> ->].
  destruct (Z.eqb_spec n1 n2) as [-> | Hne].
  - apply Z.eqb_refl.
  - apply Z.eqb_neq. lia.
Qed.

Lemma diagonal_count :
  List.length (filter (fun p : Z * Z => fst p =? snd p) noise_pairs) = 100%nat.
Proof. vm_compute. reflexivity. Qed.

Lemma noise_pairs_count : Z.of_nat (List.length noise_pairs) = 10000.
Proof. vm_compute. reflexivity. Qed.

Lemma collisions_count (value secret_key multiplier : Z) :
  List.length (collisions value secret_key multiplier) = 100%nat.
Proof.
  unfold collisions.
  rewrite (filter_ext_in _ (fun p : Z * Z => fst p =? snd p)).
  - apply diagonal_count.
  - intros p Hp. apply same_ciphertext_iff_same_noise. exact Hp.
Qed.

(** C9, as stated, fails: with noise 42 drawn twice the two ciphertexts of
    5000 are the same, and this happens for 100 of the 10000 pairs of noise
    values, one pair in a hundred, which is no negligible fraction. *)
Lemma encrypt_twice_can_collide :
  result (encrypt_twice 5000 1000 100 (rng_with_noise 42 42)) =
    Returns ((501042, 42), (501042, 42)) /\
  List.length (collisions 5000 1000 100) = 100%nat /\
  Z.of_nat (List.length noise_pairs) = 10000.
Proof.
  split; [reflexivity | split; [apply collisions_count | apply noise_pairs_count]].
Qed.

(** C9, amended.  Two encryptions of one plaintext under one key give
    different encrypted values exactly when they draw different noise: of
    the 10000 pairs of noise values, 100 give the same ciphertext twice and
    9900 give two different ones.  Either way both ciphertexts decrypt to
    the plaintext. *)
Theorem encrypt_twice_differs_iff_noise_differs
    (value secret_key multiplier : Z) (g : rng) :
  multiplier <> 0 ->
  List.length (collisions value secret_key multiplier) = 100%nat /\
  Z.of_nat (List.length noise_pairs) = 10000 /\
  exists c1 n1 c2 n2,
    result (encrypt_twice value secret_key multiplier g) =
      Returns ((c1, n1), (c2, n2)) /\
    (c1 <> c2 <-> n1 <> n2) /\
    result (Simple.decrypt c1 n1 secret_key multiplier g) = Returns value /\
    result (Simple.decrypt c2 n2 secret_key multiplier g) = Returns value.
Proof.
  intros Hm.
  split; [apply collisions_count | split; [apply noise_pairs_count |]].
  exists (value * multiplier + secret_key + drawn 1 100 g), (drawn 1 100 g),
         (value * multiplier + secret_key + drawn 1 100 (advance g)),
         (drawn 1 100 (advance g)).
  rewrite encrypt_twice_run, !simple_decrypt_run by assumption.
  unfold result. cbn [fst]. rewrite !unblind by assumption.
  repeat split; lia.
Qed.

Lemma encrypt_twice_differs_iff_noise_differs_witness :
  List.length (collisions 5000 1000 100) = 100%nat /\
  Z.of_nat (List.length noise_pairs) = 10000 /\
  exists c1 n1 c2 n2,
    result (encrypt_twice 5000 1000 100 (rng_with_noise 42 43)) =
      Returns ((c1, n1), (c2, n2)) /\
    (c1 <> c2 <-> n1 <> n2) /\
    result (Simple.decrypt c1 n1 1000 100 (rng_with_noise 42 43)) = Returns 5000 /\
    result (Simple.decrypt c2 n2 1000 100 (rng_with_noise 42 43)) = Returns 5000.
Proof.
  apply (encrypt_twice_differs_iff_noise_differs 5000 1000 100 (rng_with_noise 42 43)).
  lia.
Defined.

(** ** Key generation *)

(** Both scripts draw the secret key from 1000..9999 and then the
    multiplier from 100..500, using two draws of the generator and never
    failing; with such a key [decrypt] returns for every ciphertext and
    noise, since the multiplier it divides by is not zero. *)
Theorem generated_keys_never_divide_by_zero (g : rng) :
  exists secret_key multiplier,
    Simple.generate_keys g = (Returns (secret_key, multiplier), advance (advance g)) /\
    Step3.init g =
      (Returns {| Step3.secret_key := secret_key; Step3.multiplier := multiplier |},
       advance (advance g)) /\
    generated_key secret_key multiplier /\
    forall encrypted_value noise g',
      Simple.decrypt encrypted_value noise secret_key multiplier g' =
      (Returns ((encrypted_value - secret_key - noise) / multiplier), g').
Proof.
  exists (drawn 1000 9999 g), (drawn 100 500 (advance g)).
  pose proof (drawn_range 1000 9999 g ltac:(lia)) as Hs.
  pose proof (drawn_range 100 500 (advance g) ltac:(lia)) as Hm.
  split; [| split; [| split]].
  - unfold Simple.generate_keys. py_run. reflexivity.
  - unfold Step3.init. py_run. reflexivity.
  - split; assumption.
  - intros e n g'. apply simple_decrypt_run. lia.
Qed.

(** ** The sum of any number of balances *)

Lemma total_cons (c : cipher) (cs : list cipher) :
  total (c :: cs) = (fst c + fst (total cs), snd c + snd (total cs)).
Proof. reflexivity. Qed.

(** What the branch sends: one ciphertext per balance; taken together
    they carry every balance times the multiplier and the secret key once
    per balance, besides the noise. *)
Lemma encrypt_all_run (self : Step3.SimpleHomomorphicEncryption) (balances : list Z)
    (g : rng) :
  exists cs g',
    Step3.encrypt_all self balances g = (Returns cs, g') /\
    List.length cs = List.length balances /\
    fst (total cs) - snd (total cs) =
    sum_of balances * Step3.multiplier self +
    Z.of_nat (List.length balances) * Step3.secret_key self.
Proof.
  revert g. induction balances as [| b bs IH]; intros g.
  - exists [], g. repeat split.
  - destruct (IH (advance g)) as (cs & g' & E & L & T).
    cbn [Step3.encrypt_all]. unfold bind at 1.
    rewrite step3_encrypt_simple, simple_encrypt_run.
    unfold bind, ret. rewrite E.
    eexists; eexists. split; [reflexivity |].
    split; [cbn [List.length]; congruence |].
    rewrite total_cons. cbn [fst snd List.length].
    change (sum_of (b :: bs)) with (b + sum_of bs).
    rewrite Nat2Z.inj_succ. nia.
Qed.

Lemma aggregate_run (self : Step3.SimpleHomomorphicEncryption) (balances : list Z)
    (g : rng) :
  Step3.multiplier self <> 0 ->
  balances <> [] ->
  result (aggregate self balances g) =
  Returns (sum_of balances +
           (Z.of_nat (List.length balances) - 1) * Step3.secret_key self
           / Step3.multiplier self).
Proof.
  intros Hm Hne.
  destruct (encrypt_all_run self balances g) as (cs & g' & E & L & T).
  unfold aggregate, bind. rewrite E.
  destruct cs as [| c cs].
  - destruct balances; [contradiction | discriminate L].
  - cbn [Step3.server_sum]. rewrite add_rest_run.
    rewrite step3_decrypt_simple, simple_decrypt_run by assumption.
    unfold result. cbn [fst]. f_equal.
    unfold cipher in *.
    match goal with
    | |- ?num / _ = _ =>
        replace num
          with (sum_of balances * Step3.multiplier self +
                (Z.of_nat (List.length balances) - 1) * Step3.secret_key self)
          by lia
    end.
    apply Z.div_add_l. exact Hm.
Qed.

(** For any non-empty list of balances, encrypting each one, adding the
    ciphertexts as the server does and decrypting the sum returns the true
    total plus [((n - 1) * secret_key) // multiplier], where [n] is the
    number of balances: a single balance comes back exactly, every further
    one leaves one more secret key in the sum. *)
Theorem aggregate_returns_total_plus_surplus
    (self : Step3.SimpleHomomorphicEncryption) (balances : list Z) (g : rng) :
  Step3.multiplier self <> 0 ->
  balances <> [] ->
  result (aggregate self balances g) =
  Returns (sum_of balances +
           (Z.of_nat (List.length balances) - 1) * Step3.secret_key self
           / Step3.multiplier self).
Proof. apply aggregate_run. Qed.

Lemma aggregate_returns_total_plus_surplus_witness :
  result (aggregate {| Step3.secret_key := 1000; Step3.multiplier := 100 |}
            [5000; 12000; 8500] (rng_of [3; 14; 15])) =
  Returns (sum_of [5000; 12000; 8500] +
           (Z.of_nat (List.length [5000; 12000; 8500]) - 1) * 1000 / 100).
Proof.
  apply (aggregate_returns_total_plus_surplus
           {| Step3.secret_key := 1000; Step3.multiplier := 100 |}
           [5000; 12000; 8500] (rng_of [3; 14; 15])).
  - cbn [Step3.multiplier]. lia.
  - discriminate.
Defined.

(** With a key as the scripts generate it and two or more balances, the
    decrypted total is always larger than the true total. *)
Theorem aggregate_exceeds_total_from_two_balances
    (self : Step3.SimpleHomomorphicEncryption) (balances : list Z) (g : rng) :
  generated_key (Step3.secret_key self) (Step3.multiplier self) ->
  (2 <= List.length balances)%nat ->
  exists decrypted_total,
    result (aggregate self balances g) = Returns decrypted_total /\
    sum_of balances < decrypted_total.
Proof.
  intros [Hs Hm] Hlen.
  eexists. split.
  - apply aggregate_run; [lia |].
    destruct balances; [cbn in Hlen; lia | discriminate].
  - assert (1 <= (Z.of_nat (List.length balances) - 1) * Step3.secret_key self
                 / Step3.multiplier self); [| lia].
    apply Z.div_le_lower_bound; nia.
Qed.

Lemma aggregate_exceeds_total_from_two_balances_witness :
  exists decrypted_total,
    result (aggregate {| Step3.secret_key := 1000; Step3.multiplier := 500 |}
              [0; 0] (rng_of [])) = Returns decrypted_total /\
    sum_of [0; 0] < decrypted_total.
Proof.
  apply (aggregate_exceeds_total_from_two_balances
           {| Step3.secret_key := 1000; Step3.multiplier := 500 |} [0; 0] (rng_of [])).
  - unfold generated_key. cbn [Step3.secret_key Step3.multiplier]. lia.
  - cbn [List.length]. lia.
Defined.

(** Neither script ever passes its own check: for every state of the
    generator the decrypted total of the three balances is larger than
    25500 and the comparison with the true total is false. *)
Theorem scripts_never_report_success (g : rng) :
  (exists decrypted_total,
     result (Simple.banking_scenario g) = Returns (decrypted_total, false) /\
     25500 < decrypted_total) /\
  (exists decrypted_total,
     result (Step3.banking_scenario g) = Returns (decrypted_total, false) /\
     25500 < decrypted_total).
Proof.
  split; [apply simple_scenario_never_matches | apply step3_scenario_never_matches].
Qed.

(** ** What the ciphertext gives away *)

Lemma floor_with_slack (value multiplier slack : Z) :
  0 < multiplier ->
  ((value * multiplier + slack) / multiplier = value <-> 0 <= slack < multiplier).
Proof.
  intros Hm. rewrite Z.div_add_l by lia.
  pose proof (Z.div_small_iff slack multiplier ltac:(lia)) as Hsmall.
  split.
  - intros E. assert (E0 : slack / multiplier = 0) by lia.
    apply Hsmall in E0. lia.
  - intros Hs. rewrite (proj2 Hsmall) by lia. lia.
Qed.

(** Decryption does not need the noise that [encrypt] returned.  With a
    multiplier above zero any claimed noise that is at most the true one
    and less than a multiplier below it decrypts to the plaintext; with a
    generated key the constant 1 always does. *)
Theorem decrypt_needs_no_noise
    (value secret_key multiplier : Z) (g : rng) :
  generated_key secret_key multiplier ->
  exists encrypted_value noise,
    result (Simple.encrypt value secret_key multiplier g) =
      Returns (encrypted_value, noise) /\
    (forall claimed g',
       0 <= noise - claimed < multiplier ->
       result (Simple.decrypt encrypted_value claimed secret_key multiplier g') =
       Returns value) /\
    (forall g',
       result (Simple.decrypt encrypted_value 1 secret_key multiplier g') =
       Returns value).
Proof.
  intros [Hs Hm].
  pose proof (drawn_range 1 100 g ltac:(lia)) as Hn.
  exists (value * multiplier + secret_key + drawn 1 100 g), (drawn 1 100 g).
  rewrite simple_encrypt_run. split; [reflexivity |].
  assert (Hslack : forall claimed g',
    0 <= drawn 1 100 g - claimed < multiplier ->
    result (Simple.decrypt (value * multiplier + secret_key + drawn 1 100 g)
              claimed secret_key multiplier g') = Returns value).
  { intros claimed g' Hc. rewrite simple_decrypt_run by lia.
    unfold result. cbn [fst]. f_equal.
    replace (value * multiplier + secret_key + drawn 1 100 g - secret_key - claimed)
      with (value * multiplier + (drawn 1 100 g - claimed)) by ring.
    apply floor_with_slack; lia. }
  split; [exact Hslack |].
  intros g'. apply Hslack. lia.
Qed.

Lemma decrypt_needs_no_noise_witness :
  exists encrypted_value noise,
    result (Simple.encrypt 8500 9999 100 (rng_of [99])) =
      Returns (encrypted_value, noise) /\
    (forall claimed g',
       0 <= noise - claimed < 100 ->
       result (Simple.decrypt encrypted_value claimed 9999 100 g') = Returns 8500) /\
    (forall g',
       result (Simple.decrypt encrypted_value 1 9999 100 g') = Returns 8500).
Proof.
  apply (decrypt_needs_no_noise 8500 9999 100 (rng_of [99])).
  unfold generated_key. lia.
Defined.

(** Decrypting with another secret key gives the plaintext exactly when
    that key is at most the true one and less than a multiplier below it:
    the last [multiplier] keys up to the true one all decrypt correctly,
    every other key gives a different value. *)
Theorem decrypt_accepts_nearby_keys
    (value secret_key multiplier other_key : Z) (g g' : rng) :
  0 < multiplier ->
  exists encrypted_value noise,
    result (Simple.encrypt value secret_key multiplier g) =
      Returns (encrypted_value, noise) /\
    (result (Simple.decrypt encrypted_value noise other_key multiplier g') =
       Returns value <->
     other_key <= secret_key < other_key + multiplier).
Proof.
  intros Hm.
  exists (value * multiplier + secret_key + drawn 1 100 g), (drawn 1 100 g).
  rewrite simple_encrypt_run. split; [reflexivity |].
  rewrite simple_decrypt_run by lia. unfold result. cbn [fst].
  replace (value * multiplier + secret_key + drawn 1 100 g - other_key - drawn 1 100 g)
    with (value * multiplier + (secret_key - other_key)) by ring.
  pose proof (floor_with_slack value multiplier (secret_key - other_key) Hm) as Hf.
  split.
  - intros E. injection E as E. apply Hf in E. lia.
  - intros Hk. f_equal. apply Hf. lia.
Qed.

Lemma decrypt_accepts_nearby_keys_witness :
  exists encrypted_value noise,
    result (Simple.encrypt 5000 1000 100 (rng_of [7])) =
      Returns (encrypted_value, noise) /\
    (result (Simple.decrypt encrypted_value noise 901 100 (rng_of [])) =
       Returns 5000 <->
     901 <= 1000 < 901 + 100).
Proof.
  apply (decrypt_accepts_nearby_keys 5000 1000 100 901 (rng_of [7]) (rng_of [])).
  lia.
Defined.

(** The server, which holds encrypted values and their noise but no key,
    can tell whether two ciphertexts hide the same plaintext: encrypted
    value minus noise differs by the difference of the plaintexts times the
    multiplier, and agrees exactly when the plaintexts agree. *)
Theorem equal_plaintexts_show
    (v1 v2 secret_key multiplier : Z) (g1 g2 : rng) :
  multiplier <> 0 ->
  exists c1 n1 c2 n2,
    result (Simple.encrypt v1 secret_key multiplier g1) = Returns (c1, n1) /\
    result (Simple.encrypt v2 secret_key multiplier g2) = Returns (c2, n2) /\
    (c1 - n1) - (c2 - n2) = (v1 - v2) * multiplier /\
    (c1 - n1 = c2 - n2 <-> v1 = v2).
Proof.
  intros Hm.
  exists (v1 * multiplier + secret_key + drawn 1 100 g1), (drawn 1 100 g1),
         (v2 * multiplier + secret_key + drawn 1 100 g2), (drawn 1 100 g2).
  rewrite !simple_encrypt_run. unfold result. cbn [fst].
  repeat split; try ring.
  - intros E. assert (E' : (v1 - v2) * multiplier = 0) by lia.
    apply Z.mul_eq_0 in E'. lia.
  - intros ->. ring.
Qed.

Lemma equal_plaintexts_show_witness :
  exists c1 n1 c2 n2,
    result (Simple.encrypt 5000 1000 100 (rng_of [10])) = Returns (c1, n1) /\
    result (Simple.encrypt 5000 1000 100 (rng_of [90])) = Returns (c2, n2) /\
    (c1 - n1) - (c2 - n2) = (5000 - 5000) * 100 /\
    (c1 - n1 = c2 - n2 <-> 5000 = 5000).
Proof.
  apply (equal_plaintexts_show 5000 5000 1000 100 (rng_of [10]) (rng_of [90])).
  lia.
Defined.

(** Two ciphertexts of known, different plaintexts give the whole key
    away: the multiplier is the difference of encrypted value minus noise
    divided by the difference of the plaintexts, and the secret key is what
    is left of one ciphertext once plaintext times multiplier and noise are
    taken off. *)
Theorem two_known_plaintexts_give_the_key
    (v1 v2 secret_key multiplier : Z) (g1 g2 : rng) :
  v1 <> v2 ->
  exists c1 n1 c2 n2,
    result (Simple.encrypt v1 secret_key multiplier g1) = Returns (c1, n1) /\
    result (Simple.encrypt v2 secret_key multiplier g2) = Returns (c2, n2) /\
    multiplier = ((c1 - n1) - (c2 - n2)) / (v1 - v2) /\
    secret_key = c1 - n1 - v1 * (((c1 - n1) - (c2 - n2)) / (v1 - v2)).
Proof.
  intros Hv.
  exists (v1 * multiplier + secret_key + drawn 1 100 g1), (drawn 1 100 g1),
         (v2 * multiplier + secret_key + drawn 1 100 g2), (drawn 1 100 g2).
  rewrite !simple_encrypt_run. unfold result. cbn [fst].
  assert (Hq : (v1 * multiplier + secret_key + drawn 1 100 g1 - drawn 1 100 g1
                - (v2 * multiplier + secret_key + drawn 1 100 g2 - drawn 1 100 g2))
               / (v1 - v2) = multiplier).
  { replace (v1 * multiplier + secret_key + drawn 1 100 g1 - drawn 1 100 g1
             - (v2 * multiplier + secret_key + drawn 1 100 g2 - drawn 1 100 g2))
      with (multiplier * (v1 - v2)) by ring.
    apply Z.div_mul. lia. }
  rewrite Hq. repeat split; ring.
Qed.

Lemma two_known_plaintexts_give_the_key_witness :
  exists c1 n1 c2 n2,
    result (Simple.encrypt 5000 4321 250 (rng_of [10])) = Returns (c1, n1) /\
    result (Simple.encrypt 12000 4321 250 (rng_of [90])) = Returns (c2, n2) /\
    250 = ((c1 - n1) - (c2 - n2)) / (5000 - 12000) /\
    4321 = c1 - n1 - 5000 * (((c1 - n1) - (c2 - n2)) / (5000 - 12000)).
Proof.
  apply (two_known_plaintexts_give_the_key 5000 12000 4321 250
           (rng_of [10]) (rng_of [90])).
  lia.
Defined.

(** ** The central server, for any ciphertext addition *)

Section ServerFacts.

Variable C : Type.

Lemma add_from_pure (f : C -> C -> C) (acc : C) (rest : list (Banking.entry C))
    (g : rng) :
  Banking.add_from C (fun a b => ret (f a b)) acc rest g =
  (Returns (fold_left f (map Banking.encrypted_balance rest) acc), g).
Proof.
  revert acc. induction rest as [| e rest IH]; intros acc.
  - reflexivity.
  - cbn [Banking.add_from map fold_left]. unfold bind, ret at 1. apply IH.
Qed.

Lemma add_from_app (cipher_add : C -> C -> py C) (acc : C)
    (xs ys : list (Banking.entry C)) (g : rng) :
  Banking.add_from C cipher_add acc (xs ++ ys) g =
  (a <- Banking.add_from C cipher_add acc xs ;;
   Banking.add_from C cipher_add a ys) g.
Proof.
  revert acc g. induction xs as [| x xs IH]; intros acc g.
  - reflexivity.
  - cbn [app Banking.add_from]. unfold bind.
    destruct (cipher_add acc (Banking.encrypted_balance x) g) as [[a | exc] g1].
    + rewrite IH. unfold bind. reflexivity.
    + reflexivity.
Qed.

End ServerFacts.

(** When the addition of ciphertexts neither fails nor draws random
    numbers, [compute_encrypted_sum] returns the ciphertexts folded from
    the left, starting with the first one, together with the number of
    entries, and leaves the generator untouched. *)
Theorem compute_encrypted_sum_folds_from_the_left
    (C : Type) (f : C -> C -> C)
    (first : Banking.entry C) (rest : list (Banking.entry C)) (g : rng) :
  Banking.compute_encrypted_sum C (fun a b => ret (f a b)) (first :: rest) g =
  (Returns (fold_left f (map Banking.encrypted_balance rest)
              (Banking.encrypted_balance first),
            List.length (first :: rest)), g).
Proof.
  cbn [Banking.compute_encrypted_sum]. unfold bind.
  rewrite add_from_pure. reflexivity.
Qed.

(** Whatever the addition does, a count that [compute_encrypted_sum]
    returns is the number of entries it was given and is at least one, so
    the average taken from it never divides by zero. *)
Theorem compute_encrypted_sum_counts_entries
    (C : Type) (cipher_add : C -> C -> py C)
    (encrypted_data : list (Banking.entry C)) (g g' : rng)
    (encrypted_sum : C) (count : nat) :
  Banking.compute_encrypted_sum C cipher_add encrypted_data g =
    (Returns (encrypted_sum, count), g') ->
  count = List.length encrypted_data /\ (1 <= count)%nat.
Proof.
  destruct encrypted_data as [| first rest]; cbn [Banking.compute_encrypted_sum].
  - intros E. discriminate E.
  - unfold bind, ret.
    destruct (Banking.add_from C cipher_add (Banking.encrypted_balance first) rest g)
      as [[a | exc] g1]; intros E; [| discriminate E].
    injection E as _ Ec _. subst count. cbn [List.length]. lia.
Qed.

Lemma compute_encrypted_sum_counts_entries_witness :
  2%nat = List.length
            [ {| Banking.customer_id := 1; Banking.customer_name := "Alice Johnson";
                 Banking.encrypted_balance := (501001, 1) |};
              {| Banking.customer_id := 2; Banking.customer_name := "Bob Smith";
                 Banking.encrypted_balance := (1201002, 2) |} ] /\
  (1 <= 2)%nat.
Proof.
  apply (compute_encrypted_sum_counts_entries cipher cipher_plus
           [ {| Banking.customer_id := 1; Banking.customer_name := "Alice Johnson";
                Banking.encrypted_balance := (501001, 1) |};
             {| Banking.customer_id := 2; Banking.customer_name := "Bob Smith";
                Banking.encrypted_balance := (1201002, 2) |} ]
           (rng_of []) (rng_of []) (1702003, 3) 2%nat).
  reflexivity.
Defined.

(** An addition that fails stops the aggregation: once the entries before
    it have been added, the exception of the failing addition is what
    [compute_encrypted_sum] raises, and the entries after it are not
    looked at. *)
Theorem compute_encrypted_sum_stops_at_failed_addition
    (C : Type) (cipher_add : C -> C -> py C)
    (first : Banking.entry C) (before : list (Banking.entry C))
    (failing : Banking.entry C) (after : list (Banking.entry C))
    (g g1 g2 : rng) (so_far : C) (exc : string) :
  Banking.add_from C cipher_add (Banking.encrypted_balance first) before g =
    (Returns so_far, g1) ->
  cipher_add so_far (Banking.encrypted_balance failing) g1 = (Raises exc, g2) ->
  Banking.compute_encrypted_sum C cipher_add
    (first :: before ++ failing :: after) g = (Raises exc, g2).
Proof.
  intros Hbefore Hfail.
  cbn [Banking.compute_encrypted_sum]. unfold bind at 1.
  rewrite add_from_app. unfold bind at 1. rewrite Hbefore.
  cbn [Banking.add_from]. unfold bind at 1. rewrite Hfail. reflexivity.
Qed.

Lemma compute_encrypted_sum_stops_at_failed_addition_witness :
  Banking.compute_encrypted_sum cipher
    (fun a b => if fst b <? 0 then raise "ValueError"%string else cipher_plus a b)
    ({| Banking.customer_id := 1; Banking.customer_name := "Alice Johnson";
        Banking.encrypted_balance := (501001, 1) |}
     :: [ {| Banking.customer_id := 2; Banking.customer_name := "Bob Smith";
             Banking.encrypted_balance := (1201002, 2) |} ]
     ++ {| Banking.customer_id := 3; Banking.customer_name := "Carol White";
           Banking.encrypted_balance := (-1, 3) |}
     :: [ {| Banking.customer_id := 4; Banking.customer_name := "David Brown";
             Banking.encrypted_balance := (1501004, 4) |} ])
    (rng_of []) = (Raises "ValueError", rng_of []).
Proof.
  apply (compute_encrypted_sum_stops_at_failed_addition cipher
           (fun a b => if fst b <? 0 then raise "ValueError"%string
                       else cipher_plus a b)
           _ _ _ _ (rng_of []) (rng_of []) (rng_of []) (1702003, 3) "ValueError").
  - reflexivity.
  - reflexivity.
Defined.

(** ** The branch, for any encryption *)

Section BranchFacts.

Variables (B C : Type) (engine_encrypt : B -> py C).

Lemma encrypt_loop_keeps_customers
    (todo : list (Branch.Customer B)) (done : list (Branch.encrypted_record B C))
    (g : rng) :
  (forall b g0, exists c g1, engine_encrypt b g0 = (Returns c, g1)) ->
  exists recs g',
    Branch.encrypt_loop engine_encrypt todo done g = (Returns (done ++ recs), g') /\
    map Branch.rec_customer_id recs = map Branch.customer_id todo /\
    map Branch.rec_customer_name recs = map Branch.name todo /\
    map Branch.rec_original_balance recs = map Branch.customer_balance todo.
Proof.
  intros Htotal. revert done g.
  induction todo as [| customer rest IH]; intros done g.
  - exists [], g. cbn [Branch.encrypt_loop]. rewrite app_nil_r. repeat split.
  - cbn [Branch.encrypt_loop]. unfold bind.
    destruct (Htotal (Branch.customer_balance customer) g) as (c & g1 & E).
    rewrite E.
    destruct (IH (done ++ [{| Branch.rec_customer_id := Branch.customer_id customer;
                              Branch.rec_customer_name := Branch.name customer;
                              Branch.rec_encrypted_balance := c;
                              Branch.rec_original_balance :=
                                Branch.customer_balance customer |}]) g1)
      as (recs & g' & E' & Hid & Hname & Hbal).
    eexists (_ :: recs), g'. rewrite E', <- app_assoc.
    split; [reflexivity |].
    cbn [map Branch.rec_customer_id Branch.rec_customer_name
         Branch.rec_original_balance].
    rewrite Hid, Hname, Hbal. repeat split.
Qed.

Lemma encrypt_loop_fails_with_customer
    (bad : Branch.Customer B)
    (todo : list (Branch.Customer B)) (done : list (Branch.encrypted_record B C))
    (g : rng) :
  In bad todo ->
  (forall g0, exists exc g1,
     engine_encrypt (Branch.customer_balance bad) g0 = (Raises exc, g1)) ->
  exists exc, result (Branch.encrypt_loop engine_encrypt todo done g) = Raises exc.
Proof.
  intros Hin Hbad. revert done g.
  induction todo as [| customer rest IH]; intros done g.
  - contradiction.
  - cbn [Branch.encrypt_loop]. unfold bind.
    destruct (engine_encrypt (Branch.customer_balance customer) g)
      as [[c | exc] g1] eqn:E.
    + destruct Hin as [-> | Hin].
      * destruct (Hbad g) as (exc & g2 & E2). rewrite E2 in E. discriminate E.
      * apply IH. exact Hin.
    + exists exc. reflexivity.
Qed.

End BranchFacts.

(** When the library's encryption returns for every balance,
    [encrypt_balances] returns one record per customer of the branch, in
    the order in which the customers were added, with the customer's id
    and name, and with the balance itself, unencrypted, under
    [original_balance]. *)
Theorem encrypt_balances_keeps_customers_and_balances
    (B C : Type) (engine_encrypt : B -> py C) (self : Branch.BankBranch B) (g : rng) :
  (forall b g0, exists c g1, engine_encrypt b g0 = (Returns c, g1)) ->
  exists recs g',
    Branch.encrypt_balances engine_encrypt self g = (Returns recs, g') /\
    map Branch.rec_customer_id recs = map Branch.customer_id (Branch.customers self) /\
    map Branch.rec_customer_name recs = map Branch.name (Branch.customers self) /\
    map Branch.rec_original_balance recs =
      map Branch.customer_balance (Branch.customers self).
Proof.
  intros Htotal. unfold Branch.encrypt_balances.
  destruct (encrypt_loop_keeps_customers B C engine_encrypt
              (Branch.customers self) [] g Htotal) as (recs & g' & E & H).
  exists recs, g'. split; [exact E | exact H].
Qed.

Lemma linear_engine_returns (b : Z) (g0 : rng) :
  exists c g1, linear_engine b g0 = (Returns c, g1).
Proof.
  unfold linear_engine. rewrite simple_encrypt_run. eexists; eexists; reflexivity.
Qed.

Lemma encrypt_balances_keeps_customers_and_balances_witness :
  let alice := {| Branch.customer_id := 1; Branch.name := "Alice Johnson"%string;
                  Branch.customer_balance := 5000 |} in
  let bob := {| Branch.customer_id := 2; Branch.name := "Bob Smith"%string;
                Branch.customer_balance := 12000 |} in
  let branch1 :=
    Branch.add_customer (Branch.add_customer (Branch.new_branch "Branch-001") alice)
      bob in
  exists recs g',
    Branch.encrypt_balances linear_engine branch1 (rng_of [3; 14]) =
      (Returns recs, g') /\
    map Branch.rec_customer_id recs =
      map Branch.customer_id (Branch.customers branch1) /\
    map Branch.rec_customer_name recs = map Branch.name (Branch.customers branch1) /\
    map Branch.rec_original_balance recs =
      map Branch.customer_balance (Branch.customers branch1).
Proof.
  exact (encrypt_balances_keeps_customers_and_balances Z cipher linear_engine
           (Branch.add_customer
              (Branch.add_customer (Branch.new_branch "Branch-001")
                 {| Branch.customer_id := 1; Branch.name := "Alice Johnson"%string;
                    Branch.customer_balance := 5000 |})
              {| Branch.customer_id := 2; Branch.name := "Bob Smith"%string;
                 Branch.customer_balance := 12000 |})
           (rng_of [3; 14]) linear_engine_returns).
Defined.

(** One balance the library refuses makes the whole call fail: if
    encryption raises for the balance of some customer of the branch,
    [encrypt_balances] raises and returns no records at all. *)
Theorem encrypt_balances_fails_with_one_refused_balance
    (B C : Type) (engine_encrypt : B -> py C) (self : Branch.BankBranch B)
    (bad : Branch.Customer B) (g : rng) :
  In bad (Branch.customers self) ->
  (forall g0, exists exc g1,
     engine_encrypt (Branch.customer_balance bad) g0 = (Raises exc, g1)) ->
  exists exc, result (Branch.encrypt_balances engine_encrypt self g) = Raises exc.
Proof.
  intros Hin Hbad. unfold Branch.encrypt_balances.
  apply (encrypt_loop_fails_with_customer B C engine_encrypt bad); assumption.
Qed.

Lemma encrypt_balances_fails_with_one_refused_balance_witness :
  exists exc,
    result (Branch.encrypt_balances
              (fun b : Z => if b <? 0 then raise "ValueError"%string
                            else linear_engine b)
              (Branch.add_customer
                 (Branch.add_customer (Branch.new_branch "Branch-001")
                    {| Branch.customer_id := 1; Branch.name := "Alice Johnson"%string;
                       Branch.customer_balance := 5000 |})
                 {| Branch.customer_id := 2; Branch.name := "Bob Smith"%string;
                    Branch.customer_balance := -12000 |})
              (rng_of [3; 14])) = Raises exc.
Proof.
  apply (encrypt_balances_fails_with_one_refused_balance Z cipher
           (fun b : Z => if b <? 0 then raise "ValueError"%string
                         else linear_engine b)
           _ {| Branch.customer_id := 2; Branch.name := "Bob Smith"%string;
                Branch.customer_balance := -12000 |} (rng_of [3; 14])).
  - cbn. right. left. reflexivity.
  - intros g0. exists "ValueError"%string, g0. reflexivity.
Defined.

(** ** Scalar multiplication in the engine of the specification *)

Section ModularArithmetic.

Variable n : Z.
Hypothesis Hn : 1 < n.

(** Powers of [1 + t * n] are linear modulo [n ^ 2]. *)
Lemma one_plus_multiple_pow (t x : Z) :
  0 <= x -> (1 + t * n) ^ x mod n ^ 2 = (1 + x * t * n) mod n ^ 2.
Proof.
  intros Hx. pattern x. apply natlike_ind; [reflexivity | | exact Hx].
  clear x Hx. intros x Hx IH.
  rewrite Z.pow_succ_r by exact Hx.
  rewrite <- Z.mul_mod_idemp_r, IH, Z.mul_mod_idemp_r by lia.
  replace ((1 + t * n) * (1 + x * t * n))
    with (1 + Z.succ x * t * n + (x * t * t) * n ^ 2) by ring.
  apply Z.mod_add. lia.
Qed.

(** [L] reads the multiple back, modulo [n]. *)
Lemma L_of_one_plus_multiple (x : Z) :
  Paillier.L n ((1 + x * n) mod n ^ 2) = x mod n.
Proof.
  unfold Paillier.L.
  assert (E : (1 + x * n) mod n ^ 2 = 1 + (x mod n) * n).
  { pose proof (Z.mod_pos_bound x n ltac:(lia)) as Hb.
    rewrite (Z.div_mod x n) at 1 by lia.
    replace (1 + (n * (x / n) + x mod n) * n)
      with (1 + (x mod n) * n + (x / n) * n ^ 2) by ring.
    rewrite Z.mod_add by lia. apply Z.mod_small. nia. }
  rewrite E. replace (1 + x mod n * n - 1) with (x mod n * n) by ring.
  apply Z.div_mul. lia.
Qed.

End ModularArithmetic.

Lemma pow_multiple_of_pred_prime (p r e : Z) :
  Z.prime p -> r mod p <> 0 -> 0 <= e -> (p - 1 | e) -> r ^ e mod p = 1.
Proof.
  intros Hp Hr He [a ->].
  pose proof (Z.prime_ge_2 _ Hp) as H2.
  assert (Ha : 0 <= a) by nia.
  rewrite Z.mul_comm, Z.pow_mul_r by lia.
  rewrite <- Z.mod_pow_l, (Z.fermat_nz p r Hp Hr), Z.pow_1_l by lia.
  apply Z.mod_small. lia.
Qed.

Lemma mod_one_divide (a m : Z) : 1 < m -> a mod m = 1 -> (m | a - 1).
Proof.
  intros Hm E. exists (a / m).
  pose proof (Z.div_mod a m ltac:(lia)). lia.
Qed.

Lemma coprime_of_divisor (a b m : Z) :
  (a | b) -> Z.gcd m b = 1 -> Z.gcd a m = 1.
Proof.
  intros Hab Hg.
  pose proof (Z.gcd_nonneg a m) as Hnn.
  assert (Hd : (Z.gcd a m | 1)).
  { rewrite <- Hg. apply Z.gcd_greatest.
    - apply Z.gcd_divide_r.
    - eapply Z.divide_trans; [apply Z.gcd_divide_l | exact Hab]. }
  apply Z.divide_1_r_nonneg in Hd; assumption.
Qed.

Lemma not_divisible_by_prime_factor (p r m : Z) :
  Z.prime p -> (p | m) -> Z.gcd r m = 1 -> r mod p <> 0.
Proof.
  intros Hp Hpm Hr E. pose proof (Z.prime_ge_2 _ Hp) as H2.
  apply Z.mod_divide in E; [| lia].
  assert (Hd : (p | 1)) by (rewrite <- Hr; apply Z.gcd_greatest; assumption).
  apply Z.divide_1_r_nonneg in Hd; lia.
Qed.

Section Keys.

Variables p q : Z.
Hypothesis Hvalid : Paillier.valid_primes p q.

Local Abbreviation n := (p * q).
Local Abbreviation lambda := (Z.lcm (p - 1) (q - 1)).

Lemma modulus_gt_1 : 1 < n.
Proof.
  destruct Hvalid as (Hp & Hq & _).
  pose proof (Z.prime_ge_2 _ Hp). pose proof (Z.prime_ge_2 _ Hq). nia.
Qed.

Lemma lambda_coprime : Z.gcd lambda n = 1.
Proof.
  destruct Hvalid as (_ & _ & _ & Hg).
  apply (coprime_of_divisor lambda ((p - 1) * (q - 1)) n); [| exact Hg].
  apply Z.lcm_least.
  - apply Z.divide_mul_l, Z.divide_refl.
  - apply Z.divide_mul_r, Z.divide_refl.
Qed.

(** Carmichael's exponent: a unit to the power [lambda] is 1 modulo [n]. *)
Lemma blinding_pow_lambda (r : Z) : Z.gcd r n = 1 -> r ^ lambda mod n = 1.
Proof.
  intros Hr. pose proof modulus_gt_1 as Hn.
  destruct Hvalid as (Hp & Hq & Hpq & _).
  pose proof (Z.prime_ge_2 _ Hp) as Hp2. pose proof (Z.prime_ge_2 _ Hq) as Hq2.
  pose proof (Z.lcm_nonneg (p - 1) (q - 1)) as Hl.
  assert (Dp : (p | r ^ lambda - 1)).
  { apply mod_one_divide; [lia |].
    apply pow_multiple_of_pred_prime; [exact Hp | | exact Hl | apply Z.divide_lcm_l].
    apply (not_divisible_by_prime_factor p r n Hp); [| exact Hr].
    apply Z.divide_mul_l, Z.divide_refl. }
  assert (Dq : (q | r ^ lambda - 1)).
  { apply mod_one_divide; [lia |].
    apply pow_multiple_of_pred_prime; [exact Hq | | exact Hl | apply Z.divide_lcm_r].
    apply (not_divisible_by_prime_factor q r n Hq); [| exact Hr].
    apply Z.divide_mul_r, Z.divide_refl. }
  assert (Hcop : Z.gcd q p = 1).
  { apply Z.coprime_prime_l; [exact Hq |].
    intros D. apply (Z.divide_prime_prime q p Hq Hp) in D. congruence. }
  destruct Dp as [a Ea].
  assert (Dq' : (q | a)).
  { apply (Z.gauss q p a); [| exact Hcop].
    rewrite Z.mul_comm, <- Ea. exact Dq. }
  destruct Dq' as [b ->].
  assert (E : r ^ lambda = 1 + b * n) by lia.
  rewrite E, Z.mod_add by lia.
  apply Z.mod_small. lia.
Qed.

(** The blinding factor disappears under the exponent [n * lambda]. *)
Lemma blinding_vanishes (r : Z) :
  Z.gcd r n = 1 -> (r ^ n) ^ lambda mod n ^ 2 = 1.
Proof.
  intros Hr. pose proof modulus_gt_1 as Hn.
  pose proof (Z.lcm_nonneg (p - 1) (q - 1)) as Hl.
  pose proof (blinding_pow_lambda r Hr) as E.
  rewrite <- Z.pow_mul_r, (Z.mul_comm n lambda), Z.pow_mul_r by lia.
  assert (Et : r ^ lambda = 1 + (r ^ lambda / n) * n).
  { pose proof (Z.div_mod (r ^ lambda) n ltac:(lia)). lia. }
  rewrite Et, (one_plus_multiple_pow n Hn) by lia.
  replace (1 + n * (r ^ lambda / n) * n) with (1 + (r ^ lambda / n) * n ^ 2) by ring.
  rewrite Z.mod_add by lia. apply Z.mod_small. nia.
Qed.

Lemma generator_pow (x : Z) :
  0 <= x -> (n + 1) ^ x mod n ^ 2 = (1 + x * n) mod n ^ 2.
Proof.
  intros Hx. pose proof modulus_gt_1 as Hn.
  replace (n + 1) with (1 + 1 * n) by ring.
  rewrite (one_plus_multiple_pow n Hn) by lia.
  f_equal. ring.
Qed.

Lemma mu_inverts_lambda :
  (Paillier.mu (snd (Paillier.keypair p q)) * lambda) mod n = 1.
Proof.
  pose proof modulus_gt_1 as Hn.
  pose proof (Z.lcm_nonneg (p - 1) (q - 1)) as Hl.
  cbn [Paillier.keypair snd Paillier.mu].
  rewrite generator_pow by exact Hl.
  rewrite (L_of_one_plus_multiple n Hn), Z.invmod_mod_l.
  apply Z.invmod_coprime; [lia | apply lambda_coprime].
Qed.

(** Raising a ciphertext of [m] to a non-negative power [k] gives a
    ciphertext of [k * m]. *)
Lemma scalar_multiply_decrypts (m r k : Z) :
  0 <= m -> 0 <= k -> Z.gcd r n = 1 ->
  Paillier.decrypt (snd (Paillier.keypair p q)) (fst (Paillier.keypair p q))
    (Paillier.encrypt (fst (Paillier.keypair p q)) m r ^ k mod n ^ 2) =
  (k * m) mod n.
Proof.
  intros Hm Hk Hr.
  pose proof modulus_gt_1 as Hn.
  pose proof (Z.lcm_nonneg (p - 1) (q - 1)) as Hl.
  unfold Paillier.decrypt, Paillier.encrypt.
  cbn [Paillier.keypair fst snd Paillier.n Paillier.g Paillier.lambda].
  assert (E : ((((n + 1) ^ m * r ^ n) mod n ^ 2) ^ k mod n ^ 2) ^ lambda mod n ^ 2 =
              (1 + (m * k * lambda) * n) mod n ^ 2).
  { rewrite Z.mod_pow_l, <- Z.pow_mul_r by lia.
    rewrite Z.mod_pow_l.
    rewrite Z.pow_mul_l.
    rewrite <- Z.pow_mul_r by nia.
    rewrite (Z.mul_comm k lambda), (Z.pow_mul_r (r ^ n)) by lia.
    rewrite <- Z.mul_mod_idemp_r by lia.
    rewrite <- (Z.mod_pow_l ((r ^ n) ^ lambda)), (blinding_vanishes r Hr) by lia.
    rewrite Z.pow_1_l by lia.
    rewrite Z.mul_mod_idemp_r, Z.mul_1_r by lia.
    rewrite generator_pow by nia.
    f_equal. ring. }
  rewrite E, (L_of_one_plus_multiple n Hn).
  rewrite Z.mul_mod_idemp_l by lia.
  match goal with
  | |- (m * k * lambda * ?mu) mod _ = _ =>
      replace (m * k * lambda * mu) with ((k * m) * (mu * lambda)) by ring;
      change mu with (Paillier.mu (snd (Paillier.keypair p q)))
  end.
  rewrite <- Z.mul_mod_idemp_r, mu_inverts_lambda, Z.mul_1_r by lia.
  reflexivity.
Qed.

End Keys.

Lemma prime_5 : Z.prime 5.
Proof.
  split; [lia |]. intros d Hd [c E].
  assert (Hc : d = 2 \/ d = 3 \/ d = 4) by lia.
  destruct Hc as [-> | [-> | ->]]; lia.
Qed.

Lemma valid_primes_3_5 : Paillier.valid_primes 3 5.
Proof.
  split; [exact Z.prime_3 | split; [exact prime_5 | split; [lia | reflexivity]]].
Qed.

(** ** What the interest example hands to the engine *)

Lemma tax_factor_is_a_fraction : whole 0.8%Q = false.
Proof. reflexivity. Qed.

Section AdvancedFacts.

Variables PK SK C : Type.
Variable keygen : Z -> py (PK * SK).
Variable enc : PK -> Q -> py C.
Variable add : C -> C -> py C.
Variable mul : C -> Q -> py C.
Variable dec : SK -> C -> py Q.

Hypothesis keygen_returns :
  forall bits g, exists keys g', keygen bits g = (Returns keys, g').
Hypothesis enc_returns :
  forall pk x g, exists c g', enc pk x g = (Returns c, g').
Hypothesis add_returns :
  forall a b g, exists c g', add a b g = (Returns c, g').

(** With an engine that generates keys, encrypts and adds without
    failing, the example gets as far as line 310 and goes on from there:
    it multiplies the encrypted total by 0.8 and decrypts the total and
    the product as they are. *)
Lemma advanced_example_reaches_the_product (g : rng) :
  exists sk encrypted_total g1,
    Advanced.advanced_example PK SK C keygen enc add mul dec g =
    (encrypted_after_tax <- mul encrypted_total 0.8%Q ;;
     total_interest <- dec sk encrypted_total ;;
     after_tax <- dec sk encrypted_after_tax ;;
     ret (total_interest, after_tax)) g1.
Proof.
  unfold Advanced.advanced_example, Advanced.accounts.
  destruct (keygen_returns 1024 g) as ([pk sk] & g0 & Ek).
  unfold bind at 1. rewrite Ek.
  cbn [Advanced.encrypt_interests Advanced.interest app].
  destruct (enc_returns pk 250.50%Q g0) as (c1 & g1 & E1).
  destruct (enc_returns pk 180.75%Q g1) as (c2 & g2 & E2).
  destruct (enc_returns pk 420.25%Q g2) as (c3 & g3 & E3).
  unfold bind at 1. unfold bind at 1. rewrite E1.
  unfold bind at 1. rewrite E2.
  unfold bind at 1. rewrite E3.
  unfold ret at 1.
  cbn [Advanced.add_interests].
  destruct (add_returns c1 c2 g3) as (s12 & g4 & E4).
  destruct (add_returns s12 c3 g4) as (s123 & g5 & E5).
  unfold bind at 1. unfold bind at 1. rewrite E4.
  unfold bind at 1. rewrite E5.
  unfold ret at 1.
  exists sk, s123, g5. reflexivity.
Qed.

(** An engine whose [*] refuses every multiplier that is not a whole
    number makes the example fail with the exception of that refusal. *)
Lemma advanced_example_fails_on_whole_only_engine (exc : string) (g : rng) :
  (forall c x g0, whole x = false -> exists g', mul c x g0 = (Raises exc, g')) ->
  result (Advanced.advanced_example PK SK C keygen enc add mul dec g) = Raises exc.
Proof.
  intros Hmul.
  destruct (advanced_example_reaches_the_product g) as (sk & total & g1 & E).
  rewrite E. unfold bind at 1.
  destruct (Hmul total 0.8%Q g1 tax_factor_is_a_fraction) as (g' & Em).
  rewrite Em. reflexivity.
Qed.

End AdvancedFacts.

(** C3, as stated, fails on the caller's side: [advanced_example] does not
    pre-scale.  The factor it passes to [*] is 0.8, no whole number; an
    engine computing in the clear returns 851.5 and 681.2, the product
    taken with 0.8 and not divided afterwards; the same engine with a [*]
    for whole multipliers only is refused. *)
Lemma advanced_example_passes_a_fraction :
  whole 0.8%Q = false /\
  result (Advanced.advanced_example unit unit Q clear_keypair clear_encrypt
            clear_add clear_mul clear_decrypt (rng_of [])) =
    Returns ((1703 # 2)%Q, (3406 # 5)%Q) /\
  result (Advanced.advanced_example unit unit Q clear_keypair clear_encrypt
            clear_add whole_only_mul clear_decrypt (rng_of [])) =
    Raises "TypeError".
Proof.
  split; [reflexivity | split; vm_compute; reflexivity].
Qed.

(** C3, amended.  In the engine of the specification, scalar
    multiplication by a non-negative integer [k] is [c ^ k mod n ^ 2] and
    decrypts to [(k * m) mod n], and it is not defined for a negative
    [k]; this holds for keys made from two different primes with
    [gcd(pq, (p-1)(q-1)) = 1] and a blinding factor coprime to [n].  The
    caller in the source does not keep to whole multipliers: whenever key
    generation, encryption and addition succeed, [advanced_example]
    hands the fraction 0.8 to the engine's [*] on the encrypted total and
    decrypts the product as it is, without pre-scaling and without a
    division afterwards; an engine that takes whole multipliers only
    makes it fail at that call. *)
Theorem scalar_multiply_is_exact_and_caller_passes_fraction
    (p q m r k : Z)
    (PK SK C : Type)
    (keygen : Z -> py (PK * SK)) (enc : PK -> Q -> py C)
    (add : C -> C -> py C) (mul : C -> Q -> py C) (dec : SK -> C -> py Q)
    (g : rng) :
  Paillier.valid_primes p q ->
  0 <= m -> 0 <= k -> Z.gcd r (p * q) = 1 ->
  (forall bits g0, exists keys g', keygen bits g0 = (Returns keys, g')) ->
  (forall pk x g0, exists c g', enc pk x g0 = (Returns c, g')) ->
  (forall a b g0, exists c g', add a b g0 = (Returns c, g')) ->
  (let pk := fst (Paillier.keypair p q) in
   let sk := snd (Paillier.keypair p q) in
   let c := Paillier.encrypt pk m r in
   Paillier.scalar_multiply pk c k = Some (c ^ k mod Paillier.n pk ^ 2) /\
   Paillier.decrypt sk pk (c ^ k mod Paillier.n pk ^ 2) = (k * m) mod Paillier.n pk /\
   (forall j, j < 0 -> Paillier.scalar_multiply pk c j = None)) /\
  whole 0.8%Q = false /\
  (exists sk encrypted_total g1,
     Advanced.advanced_example PK SK C keygen enc add mul dec g =
     (encrypted_after_tax <- mul encrypted_total 0.8%Q ;;
      total_interest <- dec sk encrypted_total ;;
      after_tax <- dec sk encrypted_after_tax ;;
      ret (total_interest, after_tax)) g1) /\
  (forall exc,
     (forall c x g0, whole x = false ->
                     exists g', mul c x g0 = (Raises exc, g')) ->
     result (Advanced.advanced_example PK SK C keygen enc add mul dec g) =
     Raises exc).
Proof.
  intros Hvalid Hm Hk Hr Hgen Henc Hadd.
  split; [| split; [| split]].
  - cbv zeta. split; [| split].
    + unfold Paillier.scalar_multiply.
      destruct (Z.ltb_spec k 0); [lia | reflexivity].
    + apply (scalar_multiply_decrypts p q Hvalid m r k Hm Hk Hr).
    + intros j Hj. unfold Paillier.scalar_multiply.
      destruct (Z.ltb_spec j 0); [reflexivity | lia].
  - exact tax_factor_is_a_fraction.
  - apply advanced_example_reaches_the_product; assumption.
  - intros exc Hmul.
    apply advanced_example_fails_on_whole_only_engine; assumption.
Qed.

Lemma clear_engine_returns :
  (forall bits g0, exists keys g', clear_keypair bits g0 = (Returns keys, g')) /\
  (forall pk x g0, exists c g', clear_encrypt pk x g0 = (Returns c, g')) /\
  (forall a b g0, exists c g', clear_add a b g0 = (Returns c, g')).
Proof.
  repeat split; intros; eexists; eexists; reflexivity.
Qed.

Lemma scalar_multiply_is_exact_and_caller_passes_fraction_witness :
  (let pk := fst (Paillier.keypair 3 5) in
   let sk := snd (Paillier.keypair 3 5) in
   let c := Paillier.encrypt pk 7 2 in
   Paillier.scalar_multiply pk c 4 = Some (c ^ 4 mod Paillier.n pk ^ 2) /\
   Paillier.decrypt sk pk (c ^ 4 mod Paillier.n pk ^ 2) = (4 * 7) mod Paillier.n pk /\
   (forall j, j < 0 -> Paillier.scalar_multiply pk c j = None)) /\
  whole 0.8%Q = false /\
  (exists sk encrypted_total g1,
     Advanced.advanced_example unit unit Q clear_keypair clear_encrypt clear_add
       whole_only_mul clear_decrypt (rng_of []) =
     (encrypted_after_tax <- whole_only_mul encrypted_total 0.8%Q ;;
      total_interest <- clear_decrypt sk encrypted_total ;;
      after_tax <- clear_decrypt sk encrypted_after_tax ;;
      ret (total_interest, after_tax)) g1) /\
  (forall exc,
     (forall c x g0, whole x = false ->
                     exists g', whole_only_mul c x g0 = (Raises exc, g')) ->
     result (Advanced.advanced_example unit unit Q clear_keypair clear_encrypt
               clear_add whole_only_mul clear_decrypt (rng_of [])) =
     Raises exc).
Proof.
  apply (scalar_multiply_is_exact_and_caller_passes_fraction 3 5 7 2 4
           unit unit Q clear_keypair clear_encrypt clear_add whole_only_mul
           clear_decrypt (rng_of [])).
  - exact valid_primes_3_5.
  - lia.
  - lia.
  - reflexivity.
  - apply clear_engine_returns.
  - apply clear_engine_returns.
  - apply clear_engine_returns.
Defined.

(** The witness in numbers: under the primes 3 and 5 the plaintext 7
    blinded with 2 encrypts to 83, its fourth power is 196 modulo 225, and
    196 decrypts to 28 mod 15 = 13. *)
Example scalar_multiply_7_by_4 :
  Paillier.encrypt (fst (Paillier.keypair 3 5)) 7 2 = 83 /\
  Paillier.scalar_multiply (fst (Paillier.keypair 3 5)) 83 4 = Some 196 /\
  Paillier.decrypt (snd (Paillier.keypair 3 5)) (fst (Paillier.keypair 3 5)) 196 = 13.
Proof. vm_compute. repeat split. Qed.
